(** * The correction pipeline of backend/main.py

    A shallow embedding of the spell-check backend: the chunker
    [chunk_text], the response extractor [_extract_json_list], the
    occurrence scan and the correction aggregator of [spellcheck], and the
    result cache shared by [spellcheck] and [correct].

    Python strings are lists of characters.  Characters are the code points
    below 128, held in [ascii]; the character classes used by [str.lower],
    [str.strip], [re] and [json] are the ASCII ones. *)

From Stdlib Require Import String Ascii List ZArith QArith Bool Lia.
From Stdlib Require Import Sorted.
Import ListNotations.

Local Open Scope list_scope.
Local Open Scope Z_scope.
Local Set Warnings "-register-all".

(** ** Python strings *)

Module Py.

Definition str := list ascii.

(** A string literal of the development as a Python string. *)
Definition s2l (s : string) : str := list_ascii_of_string s.

Definition len (s : str) : Z := Z.of_nat (length s).

(** Truthiness of a string: [if s:]. *)
Definition truthy (s : str) : bool :=
  match s with [] => false | _ :: _ => true end.

(** [s.split(sep)] for a one-character separator: never an empty list,
    empty pieces between adjacent separators are kept. *)
Fixpoint split (sep : ascii) (s : str) : list str :=
  match s with
  | [] => [[]]
  | c :: r =>
      if Ascii.eqb c sep then [] :: split sep r
      else match split sep r with
           | w :: ws => (c :: w) :: ws
           | [] => [[c]]
           end
  end.

(** [s.find(c)] and [s.rfind(c)] for a one-character needle: the index of
    the first (last) occurrence, or [-1]. *)
Fixpoint find_from (c : ascii) (s : str) (i : Z) : Z :=
  match s with
  | [] => -1
  | d :: r => if Ascii.eqb d c then i else find_from c r (i + 1)
  end.

Definition find (s : str) (c : ascii) : Z := find_from c s 0.

Fixpoint rfind_from (c : ascii) (s : str) (i : Z) : Z :=
  match s with
  | [] => -1
  | d :: r =>
      let k := rfind_from c r (i + 1) in
      if k =? -1 then (if Ascii.eqb d c then i else -1) else k
  end.

Definition rfind (s : str) (c : ascii) : Z := rfind_from c s 0.

(** [s[a:b]] for indices [0 <= a] and [0 <= b], the only ones the program
    uses; an end before the start gives the empty string. *)
Definition slice (s : str) (a b : Z) : str :=
  firstn (Z.to_nat (b - a)) (skipn (Z.to_nat a) s).

Definition code (c : ascii) : Z := Z.of_N (N_of_ascii c).
Definition chr (z : Z) : ascii := ascii_of_N (Z.to_N z).

Definition between (lo hi : Z) (c : ascii) : bool :=
  (lo <=? code c) && (code c <=? hi).

Definition is_upper := between 65 90.
Definition is_lower := between 97 122.
Definition is_digit := between 48 57.
Definition is_alpha (c : ascii) : bool := is_upper c || is_lower c.
Definition is_alnum (c : ascii) : bool := is_alpha c || is_digit c.

(** [str.isspace] on one character: tab to carriage return, the four
    separators 28..31 and the space. *)
Definition is_space (c : ascii) : bool :=
  between 9 13 c || between 28 32 c.

Definition lower_char (c : ascii) : ascii :=
  if is_upper c then chr (code c + 32) else c.

(** [s.lower()] *)
Definition lower (s : str) : str := map lower_char s.

Fixpoint lstrip (s : str) : str :=
  match s with
  | c :: r => if is_space c then lstrip r else s
  | [] => []
  end.

(** [s.strip()] *)
Definition strip (s : str) : str := rev (lstrip (rev (lstrip s))).

Definition str_eqb (a b : str) : bool :=
  if list_eq_dec ascii_dec a b then true else false.

(** The exceptions the pipeline can raise. *)
Inductive exn : Type :=
| AttributeError
| TypeError
| ReError
| RequestException.

(** The outcome of a computation that may raise. *)
Inductive res (A : Type) : Type :=
| Ok (a : A)
| Raise (e : exn).
Arguments Ok {A} a.
Arguments Raise {A} e.

Definition bind {A B : Type} (m : res A) (k : A -> res B) : res B :=
  match m with
  | Ok a => k a
  | Raise e => Raise e
  end.

(** A [for] loop whose body may raise: the state after the last item, or
    the first exception. *)
Fixpoint for_each {A S : Type} (body : S -> A -> res S) (items : list A)
  (st : S) : res S :=
  match items with
  | [] => Ok st
  | x :: r => bind (body st x) (for_each body r)
  end.

(** A [dict] with string keys, in insertion order. *)
Definition dict (V : Type) := list (str * V).

Fixpoint dict_get {V : Type} (k : str) (d : dict V) : option V :=
  match d with
  | [] => None
  | (k', v) :: r => if str_eqb k' k then Some v else dict_get k r
  end.

(** [d[k] = v]: an existing key keeps its place. *)
Fixpoint dict_set {V : Type} (k : str) (v : V) (d : dict V) : dict V :=
  match d with
  | [] => [(k, v)]
  | (k', v') :: r =>
      if str_eqb k' k then (k', v) :: r else (k', v') :: dict_set k v r
  end.

(** [d.pop(k, None)] *)
Fixpoint dict_pop {V : Type} (k : str) (d : dict V) : dict V :=
  match d with
  | [] => []
  | (k', v') :: r => if str_eqb k' k then r else (k', v') :: dict_pop k r
  end.

Definition keys {V : Type} (d : dict V) : list str := map fst d.
Definition values {V : Type} (d : dict V) : list V := map snd d.

End Py.
Import Py.

Notation "x <- m ;; k" := (bind m (fun x => k))
  (at level 61, m at next level, right associativity).

(** ** JSON values and [json.loads] *)

Module Json.

(** A Python float as [json] reads it: the exact value of the decimal
    literal (rounding to binary64 is not modelled) or one of the constants. *)
Inductive pyfloat : Type :=
| FNum (q : Q)
| FInf (negative : bool)
| FNaN.

(** What [json.loads] returns; [JNull] is [None], [JObj] a [dict]. *)
Inductive json : Type :=
| JNull
| JBool (b : bool)
| JInt (z : Z)
| JFloat (f : pyfloat)
| JStr (s : str)
| JArr (l : list json)
| JObj (kv : dict json).

Inductive token : Type :=
| TLBracket | TRBracket | TLBrace | TRBrace | TComma | TColon
| TString (s : str)
| TBare (s : str).

(** Scanner states; the accumulators are reversed. *)
Inductive lex_state : Type :=
| LIdle
| LBare (acc : str)
| LStr (acc : str)
| LEsc (acc : str)
| LHex (acc : str) (digits : str).

Definition dquote : ascii := chr 34.
Definition backslash : ascii := chr 92.

Definition is_ws (c : ascii) : bool :=
  (code c =? 32) || (code c =? 9) || (code c =? 10) || (code c =? 13).

(** Characters of literals written without quotes: numbers and constants. *)
Definition is_bare (c : ascii) : bool :=
  is_alnum c || (code c =? 43) || (code c =? 45) || (code c =? 46).

Definition hex_val (c : ascii) : option Z :=
  if is_digit c then Some (code c - 48)
  else if between 97 102 c then Some (code c - 87)
  else if between 65 70 c then Some (code c - 55)
  else None.

Fixpoint hex_number (ds : str) (acc : Z) : option Z :=
  match ds with
  | [] => Some acc
  | d :: r =>
      match hex_val d with
      | Some v => hex_number r (16 * acc + v)
      | None => None
      end
  end.

(** The scanner outside of any literal, on character [c]: the token it
    emits, if any, and the state it moves to. *)
Definition lex_start (c : ascii) : option (list token * lex_state) :=
  if is_ws c then Some ([], LIdle)
  else if Ascii.eqb c dquote then Some ([], LStr [])
  else if Ascii.eqb c "["%char then Some ([TLBracket], LIdle)
  else if Ascii.eqb c "]"%char then Some ([TRBracket], LIdle)
  else if Ascii.eqb c "{"%char then Some ([TLBrace], LIdle)
  else if Ascii.eqb c "}"%char then Some ([TRBrace], LIdle)
  else if Ascii.eqb c ","%char then Some ([TComma], LIdle)
  else if Ascii.eqb c ":"%char then Some ([TColon], LIdle)
  else if is_bare c then Some ([], LBare [c])
  else None.

(** The character an escape sequence of one letter stands for. *)
Definition unescape (c : ascii) : option ascii :=
  if Ascii.eqb c dquote then Some dquote
  else if Ascii.eqb c backslash then Some backslash
  else if Ascii.eqb c "/"%char then Some "/"%char
  else if Ascii.eqb c "b"%char then Some (chr 8)
  else if Ascii.eqb c "f"%char then Some (chr 12)
  else if Ascii.eqb c "n"%char then Some (chr 10)
  else if Ascii.eqb c "r"%char then Some (chr 13)
  else if Ascii.eqb c "t"%char then Some (chr 9)
  else None.

Definition emit (ts : list token) (rest : option (list token))
  : option (list token) :=
  match rest with
  | Some l => Some (ts ++ l)
  | None => None
  end.

(** The scanner: [None] on a character no JSON text has at that place, a
    control character inside a string, a bad escape, an unfinished string,
    or an escape [\uXXXX] of a code point from 128 up. *)
Fixpoint lex (st : lex_state) (cs : str) : option (list token) :=
  match cs with
  | [] =>
      match st with
      | LIdle => Some []
      | LBare acc => Some [TBare (rev acc)]
      | _ => None
      end
  | c :: r =>
      match st with
      | LIdle =>
          match lex_start c with
          | Some (ts, st') => emit ts (lex st' r)
          | None => None
          end
      | LBare acc =>
          if is_bare c then lex (LBare (c :: acc)) r
          else
            match lex_start c with
            | Some (ts, st') => emit (TBare (rev acc) :: ts) (lex st' r)
            | None => None
            end
      | LStr acc =>
          if Ascii.eqb c dquote then emit [TString (rev acc)] (lex LIdle r)
          else if Ascii.eqb c backslash then lex (LEsc acc) r
          else if code c <? 32 then None
          else lex (LStr (c :: acc)) r
      | LEsc acc =>
          if Ascii.eqb c "u"%char then lex (LHex acc []) r
          else
            match unescape c with
            | Some d => lex (LStr (d :: acc)) r
            | None => None
            end
      | LHex acc ds =>
          match hex_val c with
          | None => None
          | Some _ =>
              let ds' := ds ++ [c] in
              if (length ds' =? 4)%nat then
                match hex_number ds' 0 with
                | Some n =>
                    if n <? 128 then lex (LStr (chr n :: acc)) r else None
                | None => None
                end
              else lex (LHex acc ds') r
          end
      end
  end.

(** *** Literals without quotes *)

Fixpoint span (p : ascii -> bool) (s : str) : str * str :=
  match s with
  | c :: r => if p c then let '(a, b) := span p r in (c :: a, b) else ([], s)
  | [] => ([], [])
  end.

Definition digits_val (ds : str) : Z :=
  fold_left (fun acc d => 10 * acc + (code d - 48)) ds 0.

Definition pow10 (e : Z) : Q :=
  if 0 <=? e then inject_Z (10 ^ e) else Qinv (inject_Z (10 ^ (- e))).

(** A number literal: an optional minus, an integer part without leading
    zero, an optional fraction of a dot and digits, an optional exponent of
    [e] or [E], a sign and digits.  An [int] without fraction and exponent,
    a [float] otherwise. *)
Definition number (s : str) : option json :=
  let '(neg, s1) :=
    match s with
    | c :: r => if Ascii.eqb c "-"%char then (true, r) else (false, s)
    | [] => (false, s)
    end in
  let sign := if neg then -1 else 1 in
  let '(ip, s2) := span is_digit s1 in
  let int_ok :=
    match ip with
    | [] => false
    | c :: r => negb (Ascii.eqb c "0"%char) || negb (truthy r)
    end in
  if negb int_ok then None
  else
    let '(frac, s3) :=
      match s2 with
      | c :: r =>
          if Ascii.eqb c "."%char then
            let '(fp, r') := span is_digit r in (Some fp, r')
          else (None, s2)
      | [] => (None, s2)
      end in
    let '(expo, s4) :=
      match s3 with
      | c :: r =>
          if Ascii.eqb c "e"%char || Ascii.eqb c "E"%char then
            let '(esign, r1) :=
              match r with
              | d :: r' =>
                  if Ascii.eqb d "-"%char then (-1, r')
                  else if Ascii.eqb d "+"%char then (1, r')
                  else (1, r)
              | [] => (1, r)
              end in
            let '(ep, r2) := span is_digit r1 in
            (Some (esign, ep), r2)
          else (None, s3)
      | [] => (None, s3)
      end in
    let frac_ok := match frac with Some [] => false | _ => true end in
    let exp_ok := match expo with Some (_, []) => false | _ => true end in
    if negb (frac_ok && exp_ok && negb (truthy s4)) then None
    else
      match frac, expo with
      | None, None => Some (JInt (sign * digits_val ip))
      | _, _ =>
          let fp := match frac with Some f => f | None => [] end in
          let e := match expo with
                   | Some (es, ep) => es * digits_val ep
                   | None => 0
                   end in
          let mant := sign * digits_val (ip ++ fp) in
          Some (JFloat (FNum (Qred (Qmult (inject_Z mant)
                                      (pow10 (e - Z.of_nat (length fp)))))))
      end.

Definition bare_value (s : str) : option json :=
  if str_eqb s (s2l "true") then Some (JBool true)
  else if str_eqb s (s2l "false") then Some (JBool false)
  else if str_eqb s (s2l "null") then Some JNull
  else if str_eqb s (s2l "NaN") then Some (JFloat FNaN)
  else if str_eqb s (s2l "Infinity") then Some (JFloat (FInf false))
  else if str_eqb s (s2l "-Infinity") then Some (JFloat (FInf true))
  else number s.

(** *** The grammar *)

(** An open container: the members read so far, reversed, and for an object
    the key whose value is awaited. *)
Inductive frame : Type :=
| FArr (acc : list json)
| FObj (acc : list (str * json)) (key : option str).

(** What the parser expects next. *)
Inductive mode : Type :=
| MValue
| MValueOrClose
| MKeyOrClose
| MKey
| MColon
| MCommaOrClose
| MDone (v : json).

Definition dict_of_pairs (kvs : list (str * json)) : dict json :=
  fold_left (fun d kv => dict_set (fst kv) (snd kv) d) kvs [].

(** A value is complete: it goes into the innermost open container. *)
Definition reduce (v : json) (stack : list frame)
  : option (list frame * mode) :=
  match stack with
  | [] => Some ([], MDone v)
  | FArr acc :: st => Some (FArr (v :: acc) :: st, MCommaOrClose)
  | FObj acc (Some k) :: st => Some (FObj ((k, v) :: acc) None :: st, MCommaOrClose)
  | FObj _ None :: _ => None
  end.

Definition close_array (stack : list frame) : option (list frame * mode) :=
  match stack with
  | FArr acc :: st => reduce (JArr (rev acc)) st
  | _ => None
  end.

Definition close_object (stack : list frame) : option (list frame * mode) :=
  match stack with
  | FObj acc None :: st => reduce (JObj (dict_of_pairs (rev acc))) st
  | _ => None
  end.

Definition set_key (k : str) (stack : list frame)
  : option (list frame * mode) :=
  match stack with
  | FObj acc None :: st => Some (FObj acc (Some k) :: st, MColon)
  | _ => None
  end.

Definition value_token (t : token) (stack : list frame)
  : option (list frame * mode) :=
  match t with
  | TLBracket => Some (FArr [] :: stack, MValueOrClose)
  | TLBrace => Some (FObj [] None :: stack, MKeyOrClose)
  | TString s => reduce (JStr s) stack
  | TBare s =>
      match bare_value s with
      | Some v => reduce v stack
      | None => None
      end
  | _ => None
  end.

Definition parse_step (stack : list frame) (m : mode) (t : token)
  : option (list frame * mode) :=
  match m, t with
  | MValue, _ => value_token t stack
  | MValueOrClose, TRBracket => close_array stack
  | MValueOrClose, _ => value_token t stack
  | MKeyOrClose, TRBrace => close_object stack
  | MKeyOrClose, TString k => set_key k stack
  | MKey, TString k => set_key k stack
  | MColon, TColon => Some (stack, MValue)
  | MCommaOrClose, TComma =>
      match stack with
      | FArr _ :: _ => Some (stack, MValue)
      | FObj _ _ :: _ => Some (stack, MKey)
      | [] => None
      end
  | MCommaOrClose, TRBracket => close_array stack
  | MCommaOrClose, TRBrace => close_object stack
  | _, _ => None
  end.

Fixpoint parse (ts : list token) (stack : list frame) (m : mode)
  : option json :=
  match ts with
  | [] => match m with MDone v => Some v | _ => None end
  | t :: r =>
      match parse_step stack m t with
      | Some (stack', m') => parse r stack' m'
      | None => None
      end
  end.

(** [json.loads(s)]: the value, or [None] where it raises.  The recursion
    limit of the interpreter is not modelled. *)
Definition loads (s : str) : option json :=
  match lex LIdle s with
  | Some ts => parse ts [] MValue
  | None => None
  end.

(** Test inputs are written with apostrophes for the double quotes. *)
Definition jq (s : string) : str :=
  map (fun c => if Ascii.eqb c "'"%char then dquote else c) (s2l s).

(** *** Python operations on the values read *)

(** [item.get(key)] and [item.get(key, default)]: only a [dict] has the
    method. *)
Definition py_get_default (item : json) (key : str) (default : json)
  : res json :=
  match item with
  | JObj kv =>
      Ok (match dict_get key kv with Some v => v | None => default end)
  | _ => Raise AttributeError
  end.

Definition py_get (item : json) (key : str) : res json :=
  py_get_default item key JNull.

(** The items a [for] loop or [set(...)] draws from a value: the elements
    of a list, the characters of a string, the keys of a dict. *)
Definition py_iter (v : json) : res (list json) :=
  match v with
  | JArr l => Ok l
  | JStr s => Ok (map (fun c => JStr [c]) s)
  | JObj kv => Ok (map JStr (keys kv))
  | _ => Raise TypeError
  end.

Definition hashable (v : json) : bool :=
  match v with
  | JArr _ | JObj _ => false
  | _ => true
  end.

Definition float_eqb (a b : pyfloat) : bool :=
  match a, b with
  | FNum x, FNum y => Qeq_bool x y
  | FInf x, FInf y => Bool.eqb x y
  | FNaN, FNaN => true
  | _, _ => false
  end.

(** A number as a float, for comparison: [True] is 1 and [False] is 0. *)
Definition as_float (v : json) : option pyfloat :=
  match v with
  | JBool b => Some (FNum (inject_Z (if b then 1 else 0)))
  | JInt z => Some (FNum (inject_Z z))
  | JFloat f => Some f
  | _ => None
  end.

(** Equality of two hashable values as a [set] decides it. *)
Definition py_eq (a b : json) : bool :=
  match a, b with
  | JNull, JNull => true
  | JStr x, JStr y => str_eqb x y
  | _, _ =>
      match as_float a, as_float b with
      | Some x, Some y => float_eqb x y
      | _, _ => false
      end
  end.

(** [x in seen] for a set of hashable values. *)
Definition py_in (x : json) (seen : list json) : bool :=
  existsb (py_eq x) seen.

(** [set(v)]: every item must be hashable. *)
Definition py_set (v : json) : res (list json) :=
  items <- py_iter v ;;
  if forallb hashable items then Ok items else Raise TypeError.

(** [sep.join(chunks)] with the empty separator: every item must be a
    string. *)
Fixpoint join (chunks : list json) : res str :=
  match chunks with
  | [] => Ok []
  | JStr s :: r => rest <- join r ;; Ok (s ++ rest)
  | _ :: _ => Raise TypeError
  end.

End Json.
Import Json.

(** ** The fragment of [re] the pipeline uses *)

Module Re.

(** The characters [re.escape] puts a backslash in front of. *)
Definition special_chars : list Z :=
  [40; 41; 91; 93; 123; 125; 63; 42; 43; 45; 124; 94; 36; 92; 46; 38; 126;
   35; 32; 9; 10; 13; 11; 12].

Definition is_special (c : ascii) : bool :=
  existsb (Z.eqb (code c)) special_chars.

(** [re.escape(w)] *)
Definition escape (w : str) : str :=
  flat_map (fun c => if is_special c then [backslash; c] else [c]) w.

(** Pattern items: a literal character, the dot, the word boundary. *)
Inductive atom : Type :=
| Lit (c : ascii)
| AnyChar
| WordBoundary.

(** Characters that build groups, classes, repetitions, alternatives and
    anchors when they stand without backslash. *)
Definition is_operator (c : ascii) : bool :=
  existsb (Z.eqb (code c)) [40; 41; 91; 93; 123; 125; 63; 42; 43; 124; 94; 36].

(** Reading a pattern.  A backslash makes the word boundary of [b] and a
    literal of any character that is no letter or digit; a dot matches any
    character.  [None]: the pattern is an error or uses a construct outside
    this fragment (an operator, or a backslash before another letter or a
    digit). *)
Fixpoint compile (p : str) : option (list atom) :=
  match p with
  | [] => Some []
  | c :: r =>
      if Ascii.eqb c backslash then
        match r with
        | [] => None
        | d :: r' =>
            if Ascii.eqb d "b"%char then option_map (cons WordBoundary) (compile r')
            else if is_alnum d then None
            else option_map (cons (Lit d)) (compile r')
        end
      else if Ascii.eqb c "."%char then option_map (cons AnyChar) (compile r)
      else if is_operator c then None
      else option_map (cons (Lit c)) (compile r)
  end.

(** The class [\w]. *)
Definition is_word (c : ascii) : bool := is_alnum c || Ascii.eqb c "_"%char.

Definition is_word_opt (c : option ascii) : bool :=
  match c with
  | Some x => is_word x
  | None => false
  end.

(** A literal against a character of the text, under [re.IGNORECASE] or
    not. *)
Definition char_matches (ignorecase : bool) (c d : ascii) : bool :=
  if ignorecase then Ascii.eqb (lower_char c) (lower_char d)
  else Ascii.eqb c d.

(** A match of the whole pattern that starts here: the number of characters
    it takes.  [prev] is the character in front of the place, if any. *)
Fixpoint match_here (atoms : list atom) (ignorecase : bool)
  (prev : option ascii) (s : str) : option Z :=
  match atoms with
  | [] => Some 0
  | WordBoundary :: r =>
      if xorb (is_word_opt prev) (is_word_opt (hd_error s))
      then match_here r ignorecase prev s
      else None
  | Lit c :: r =>
      match s with
      | d :: s' =>
          if char_matches ignorecase c d
          then option_map Z.succ (match_here r ignorecase (Some d) s')
          else None
      | [] => None
      end
  | AnyChar :: r =>
      match s with
      | d :: s' =>
          if code d =? 10 then None
          else option_map Z.succ (match_here r ignorecase (Some d) s')
      | [] => None
      end
  end.

(** The scan of [finditer] from place [pos]: the matches from left to
    right, none overlapping another.  [skip] counts the characters still
    covered by the last match; after an empty match the scan moves one
    character on. *)
Fixpoint scan (atoms : list atom) (ignorecase : bool) (prev : option ascii)
  (s : str) (pos : Z) (skip : nat) : list (Z * Z) :=
  let here :=
    match skip with
    | O => match_here atoms ignorecase prev s
    | S _ => None
    end in
  let found :=
    match here with
    | Some n => [(pos, pos + n)]
    | None => []
    end in
  let skip' :=
    match skip, here with
    | S k, _ => k
    | O, Some n => pred (Z.to_nat n)
    | O, None => O
    end in
  found ++
  match s with
  | [] => []
  | c :: r => scan atoms ignorecase (Some c) r (pos + 1) skip'
  end.

(** [[(m.start(), m.end()) for m in re.finditer(p, s, flags)]] *)
Definition finditer (p : str) (s : str) (ignorecase : bool)
  : res (list (Z * Z)) :=
  match compile p with
  | Some atoms => Ok (scan atoms ignorecase None s 0 0)
  | None => Raise ReError
  end.

End Re.

(** ** Chunker *)

Definition space : ascii := " "%char.

(** Body of the packing loop of [chunk_text]; the state is
    [(parts, current_text)]. *)
Definition chunk_step (max_chars : Z) (st : list str * str) (word : str)
  : list str * str :=
  let '(parts, current_text) := st in
  let '(parts, current_text) :=
    if len current_text + len word + 1 >? max_chars
    then (parts ++ [current_text], [space])
    else (parts, current_text) in
  (parts, current_text ++ word ++ [space]).

Definition chunk_text (s : str) (max_chars : Z) : list str :=
  if len s <=? max_chars then [s]
  else
    let splitted_text := split space s in
    let '(parts, current_text) :=
      fold_left (chunk_step max_chars) splitted_text
        (([], []) : list str * str) in
    if truthy current_text then parts ++ [current_text] else parts.

(** Chunk texts as the packing loop writes them: every word followed by one
    space, and one more space in front of every chunk but the first. *)
Definition render_first (g : list str) : str :=
  concat (map (fun w => w ++ [space]) g).

Definition render_next (g : list str) : str := space :: render_first g.

Definition chunks_of_groups (g0 : list str) (gs : list (list str)) : list str :=
  render_first g0 :: map render_next gs.


(** ** Response extractor *)

Definition _extract_json_list (text : str) : json :=
  let start := find text "["%char in
  let end_ := rfind text "]"%char in
  if (start =? -1) || (end_ =? -1) || (end_ <=? start) then JArr []
  else
    let snippet := slice text start (end_ + 1) in
    match loads snippet with
    | Some v => v
    | None => JArr []
    end.

(** ** Occurrence scan and correction aggregator *)

Record correction : Type := mkCorrection {
  word : json;
  suggestions : json;
  positions : list (Z * Z)
}.

(** The pattern [rf"\b{re.escape(w)}\b"]; [re.escape] raises on anything
    but a string. *)
Definition word_pattern (w : json) : res str :=
  match w with
  | JStr s => Ok (s2l "\b" ++ Re.escape s ++ s2l "\b")
  | _ => Raise TypeError
  end.

(** The positions the scan appends for one reported word: every match of
    the pattern in the chunk, moved by the running offset. *)
Definition locate (ch : str) (w : json) (offset : Z) : res (list (Z * Z)) :=
  p <- word_pattern w ;;
  ms <- Re.finditer p ch true ;;
  Ok (map (fun m => (offset + fst m, offset + snd m)) ms).

(** [w.lower()] *)
Definition py_lower (w : json) : res str :=
  match w with
  | JStr s => Ok (lower s)
  | _ => Raise AttributeError
  end.

(** [stored.append(s)]: only a list has the method. *)
Definition py_append (stored : json) (s : json) : res json :=
  match stored with
  | JArr l => Ok (JArr (l ++ [s]))
  | _ => Raise AttributeError
  end.

(** Body of the loop that unifies suggestions; the state is the stored
    suggestions and the set [seen]. *)
Definition unify_step (st : json * list json) (s : json)
  : res (json * list json) :=
  let '(stored, seen) := st in
  if negb (hashable s) then Raise TypeError
  else if negb (py_in s seen) then
    stored' <- py_append stored s ;;
    Ok (stored', seen ++ [s])
  else Ok st.

(** Body of the loop over the items of one reply: the scan for the word and
    the merge into [corrections_global]. *)
Definition merge_item (ch : str) (offset : Z) (corrections_global : dict correction)
  (item : json) : res (dict correction) :=
  w <- py_get item (s2l "misspelled_word") ;;
  sugg <- py_get item (s2l "suggestion") ;;
  positions <- locate ch w offset ;;
  key <- py_lower w ;;
  match dict_get key corrections_global with
  | None =>
      Ok (dict_set key (mkCorrection w sugg positions) corrections_global)
  | Some (mkCorrection word0 suggestions0 positions0) =>
      let positions' := positions0 ++ positions in
      seen <- py_set suggestions0 ;;
      new <- py_iter sugg ;;
      st <- for_each unify_step new (suggestions0, seen) ;;
      Ok (dict_set key (mkCorrection word0 (fst st) positions')
            corrections_global)
  end.

(** ** Requests, responses and the result cache *)

Record SpellcheckRequest : Type := mkSpellcheckRequest {
  sc_text : str;
  sc_model : option str;
  max_chunk_chars : Z
}.

Record CorrectRequest : Type := mkCorrectRequest {
  co_text : str;
  co_model : option str
}.

Definition MODEL_DEFAULT : str := s2l "llama3".
Definition CACHE_TTL : Q := inject_Z 60.

(** [m or MODEL_DEFAULT] *)
Definition model_or_default (m : option str) : str :=
  match m with
  | Some s => if truthy s then s else MODEL_DEFAULT
  | None => MODEL_DEFAULT
  end.

(** What the cache holds: the list [spellcheck] computed or the text
    [correct] computed. *)
Inductive cache_value : Type :=
| VCorrections (l : list correction)
| VText (s : str).

(** The response bodies [{"corrections": v}] and [{"text": v}]. *)
Inductive response : Type :=
| RCorrections (v : cache_value)
| RText (v : cache_value).

(** [CACHE]: key to time stamp and value. *)
Definition cache := dict (Q * cache_value).

Definition spellcheck_prompt_head : str := jq "
        You are a strict spell and grammar checker.
        Your task is to identify every misspelled or grammatically incorrect word in the provided text and return a valid JSON array of corrections.

        Each element in the array must be an object with:
        - 'misspelled_word': the exact incorrect word (as it appears in the text)
        - 'suggestion': the correct replacement (as a string)

        Output Format:
        [
            {'misspelled_word': 'mispelled', 'suggestion': 'misspelled'}
        ]

        Text:
        ".

(** The one character of the prompt outside ASCII, the dash of rule 2, is
    written as a hyphen. *)
Definition spellcheck_prompt_tail : str := jq "

        CRITICAL RULES:
        1. Never return anything except a valid JSON array.
        2. The 'suggestion' value must always be a single string - never an array.
        3. Do not modify or auto-correct the input text; only report incorrect words.
        4. Always infer the correct spelling or grammar based on context.
        5. Do not include suggestions for words that are already correct.
        ".

Definition spellcheck_prompt (ch : str) : str :=
  spellcheck_prompt_head ++ ch ++ spellcheck_prompt_tail.

Definition correct_prompt (text : str) : str :=
  jq "
Correct spelling and grammar of the following text while preserving tone & meaning.
Return ONLY the corrected text, no JSON, no commentary.

Text:
'''" ++ text ++ jq "'''
".

Section Backend.

(** [hashlib.sha256(b).hexdigest()] *)
Variable sha256_hex : str -> str.

(** The model service: for a model and a prompt, the lines of the streamed
    reply to [POST /api/generate], or the exception of a failed request. *)
Variable ollama_stream : str -> str -> res (list str).

Definition _hash_key (model text : str) : str :=
  sha256_hex (model ++ s2l "||" ++ text).

(** [_cache_get] at clock reading [now]: the value, and the cache after the
    lazy eviction. *)
Definition _cache_get (now : Q) (model text : str) (CACHE : cache)
  : option cache_value * cache :=
  let key := _hash_key model text in
  match dict_get key CACHE with
  | None => (None, CACHE)
  | Some (ts, val) =>
      if negb (Qle_bool (now - ts) CACHE_TTL)
      then (None, dict_pop key CACHE)
      else (Some val, CACHE)
  end.

Definition _cache_set (now : Q) (model text : str) (value : cache_value)
  (CACHE : cache) : cache :=
  let key := _hash_key model text in
  dict_set key (now, value) CACHE.

(** Body of the loop over the streamed lines: a line that is no JSON
    object is skipped. *)
Definition stream_step (chunks : list json) (line : str) : list json :=
  if negb (truthy line) then chunks
  else
    match loads line with
    | Some obj =>
        match py_get_default obj (s2l "response") (JStr []) with
        | Ok v => chunks ++ [v]
        | Raise _ => chunks
        end
    | None => chunks
    end.

Definition _ollama_generate (model prompt : str) : res str :=
  lines <- ollama_stream model prompt ;;
  join (fold_left stream_step lines []).

(** Body of the loop over the chunks; the state is [corrections_global]
    and the running [offset]. *)
Definition chunk_body (model : str) (st : dict correction * Z) (ch : str)
  : res (dict correction * Z) :=
  let '(corrections_global, offset) := st in
  raw <- _ollama_generate model (spellcheck_prompt ch) ;;
  let arr := _extract_json_list raw in
  items <- py_iter arr ;;
  corrections_global' <- for_each (merge_item ch offset) items corrections_global ;;
  Ok (corrections_global', offset + len ch).

(** [POST /spellcheck]; [t_get] and [t_set] are the clock readings of the
    cache read and of the cache write.  The result is the response, or the
    exception that reaches the caller, and the cache afterwards. *)
Definition spellcheck (t_get t_set : Q) (req : SpellcheckRequest)
  (CACHE : cache) : res response * cache :=
  let model := model_or_default req.(sc_model) in
  let text := req.(sc_text) in
  match _cache_get t_get model text CACHE with
  | (Some cached, CACHE') => (Ok (RCorrections cached), CACHE')
  | (None, CACHE') =>
      let chunks := chunk_text text req.(max_chunk_chars) in
      match for_each (chunk_body model) chunks ([], 0) with
      | Ok (corrections_global, _) =>
          let result := VCorrections (values corrections_global) in
          (Ok (RCorrections result), _cache_set t_set model text result CACHE')
      | Raise e => (Raise e, CACHE')
      end
  end.

(** [POST /correct] *)
Definition correct (t_get t_set : Q) (req : CorrectRequest) (CACHE : cache)
  : res response * cache :=
  let model := model_or_default req.(co_model) in
  let text := req.(co_text) in
  match _cache_get t_get model (s2l "AUTO|" ++ text) CACHE with
  | (Some cached, CACHE') => (Ok (RText cached), CACHE')
  | (None, CACHE') =>
      match _ollama_generate model (correct_prompt text) with
      | Ok reply =>
          let corrected := VText (strip reply) in
          (Ok (RText corrected),
           _cache_set t_set model (s2l "AUTO|" ++ text) corrected CACHE')
      | Raise e => (Raise e, CACHE')
      end
  end.

End Backend.

(** ** Model stubs *)

(** A JSON string literal for [s]. *)
Definition json_quote (s : str) : str :=
  dquote ::
  flat_map (fun c =>
              if Ascii.eqb c dquote || Ascii.eqb c backslash
              then [backslash; c] else [c]) s
  ++ [dquote].

(** The streamed lines of a reply whose text is [reply]: one fragment with
    the text, an empty keep-alive line, and the closing fragment. *)
Definition wire (reply : str) : list str :=
  [jq "{'response':" ++ json_quote reply ++ jq ",'done':false}";
   [];
   jq "{'response':'','done':true}"].

(** A model service that streams the same reply to every prompt. *)
Definition stub_const (reply : str) : str -> str -> res (list str) :=
  fun _ _ => Ok (wire reply).

(** A model service that answers by the chunk it is asked about: [table]
    lists chunk texts with their replies, any other prompt gets [[]]. *)
Definition stub_table (table : list (str * str)) : str -> str -> res (list str) :=
  fun _ prompt =>
    match List.find (fun row => str_eqb (spellcheck_prompt (fst row)) prompt) table with
    | Some row => Ok (wire (snd row))
    | None => Ok (wire (s2l "[]"))
    end.

(** A hash stub for closed examples: the identity. *)
Definition stub_hash (b : str) : str := b.

(** ** Health and model listing *)

(** The reply to [GET /api/tags]. *)
Record tags_reply : Type := mkTagsReply {
  status_code : Z;
  body : str
}.

(** [GET /health]; [ollama_tags] is the outcome of [requests.get]: the
    reply, or the exception of a failed request. *)
Definition health (ollama_tags : res tags_reply) : bool :=
  match ollama_tags with
  | Ok r => r.(status_code) =? 200
  | Raise _ => false
  end.

(** The status codes on which [r.raise_for_status()] raises. *)
Definition is_error_status (status : Z) : bool :=
  (400 <=? status) && (status <? 600).

(** [m[key]] for a string key: the value of a dict that has the key;
    [None] where it raises. *)
Definition py_getitem (m : json) (key : str) : option json :=
  match m with
  | JObj kv => dict_get key kv
  | _ => None
  end.

(** The comprehension over the listed models; [None] where it raises. *)
Fixpoint names_of (items : list json) : option (list json) :=
  match items with
  | [] => Some []
  | m :: r =>
      match py_getitem m (s2l "name") with
      | Some n => option_map (cons n) (names_of r)
      | None => None
      end
  end.

(** [GET /models]: the names, or [None] for the [HTTPException] with
    status 500 that every exception is turned into. *)
Definition models (ollama_tags : res tags_reply) : option (list json) :=
  match ollama_tags with
  | Raise _ => None
  | Ok r =>
      if is_error_status r.(status_code) then None
      else
        match loads r.(body) with
        | None => None
        | Some data =>
            match py_get_default data (s2l "models") (JArr []) with
            | Raise _ => None
            | Ok ms =>
                match py_iter ms with
                | Raise _ => None
                | Ok items => names_of items
                end
            end
        end
  end.

(** ** Notions the properties are stated with *)

(** The state of the packing loop as a grouping of the words read so far:
    the first chunk holds [g0], the later chunks hold the groups of [gs],
    the last of them still open. *)
Inductive grouped : list str -> list (list str) -> list str * str -> Prop :=
| grouped_first g0 :
    grouped g0 [] ([], render_first g0)
| grouped_next g0 gs g :
    grouped g0 (gs ++ [g])
      (render_first g0 :: map render_next gs, render_next g).

(** The length bound carried by the loop when every word leaves room for
    the two spaces around it. *)
Definition within (max_chars : Z) (st : list str * str) : Prop :=
  Forall (fun c => len c <= max_chars) (fst st) /\ len (snd st) <= max_chars.

(** The character in front of the place reached after reading [s], when
    [prev] was in front of [s]. *)
Definition last_char (prev : option ascii) (s : str) : option ascii :=
  fold_left (fun _ c => Some c) s prev.

(** A word boundary between two neighbours: exactly one of them is a word
    character; the ends of the text count as no word character. *)
Definition word_boundary (a b : option ascii) : Prop :=
  xorb (Re.is_word_opt a) (Re.is_word_opt b) = true.

(** [m] is a whole-word occurrence of [w] in [ch = pre ++ m ++ rest]: equal
    to [w] when case is ignored, with a word boundary at both ends. *)
Definition occurrence (ch w pre m rest : str) : Prop :=
  ch = pre ++ m ++ rest /\
  lower m = lower w /\
  word_boundary (last_char None pre) (hd_error (m ++ rest)) /\
  word_boundary (last_char None (pre ++ m)) (hd_error rest).

Definition mem (s : str) (l : list str) : bool := existsb (str_eqb s) l.

(** The list without its repetitions: every string at its first place. *)
Fixpoint dedup_first (l : list str) : list str :=
  match l with
  | [] => []
  | x :: r => x :: filter (fun y => negb (str_eqb y x)) (dedup_first r)
  end.

(** The union that keeps first-seen order: [old], then the strings of
    [new] that [old] does not hold, each once, in their order in [new]. *)
Definition union_first_seen (old new : list str) : list str :=
  old ++ dedup_first (filter (fun s => negb (mem s old)) new).

(** The key under which an item is merged. *)
Definition item_key (item : json) : str :=
  match py_get item (s2l "misspelled_word") with
  | Ok (JStr w) => lower w
  | _ => []
  end.

(** The loop of the aggregator over plain lists of strings. *)
Fixpoint union_loop (l news : list str) : list str :=
  match news with
  | [] => l
  | s :: r => if mem s l then union_loop l r else union_loop (l ++ [s]) r
  end.

(** The items the model reports for one chunk, as the loop of [spellcheck]
    reads them; none when the call or the reading raises. *)
Definition reported_items (ollama_stream : str -> str -> res (list str))
  (model ch : str) : list json :=
  match _ollama_generate ollama_stream model (spellcheck_prompt ch) with
  | Ok raw =>
      match py_iter (_extract_json_list raw) with
      | Ok items => items
      | Raise _ => []
      end
  | Raise _ => []
  end.

(** Every entry is filed under the lower-case form of its word. *)
Definition keyed (g : dict correction) : Prop :=
  Forall (fun kc => py_lower (word (snd kc)) = Ok (fst kc)) g.

(** Two reports of one word, in two chunks, with suggestions in lists. *)
Definition item_Teh : json :=
  JObj [(s2l "misspelled_word", JStr (s2l "Teh"));
        (s2l "suggestion", JArr [JStr (s2l "The")])].

Definition item_teh : json :=
  JObj [(s2l "misspelled_word", JStr (s2l "teh"));
        (s2l "suggestion", JArr [JStr (s2l "the"); JStr (s2l "The")])].

Definition entry_Teh (ps : list (Z * Z)) (sugg : list str) : correction :=
  mkCorrection (JStr (s2l "Teh")) (JArr (map JStr sugg)) ps.

(** The same two reports as replies of the model to the first and the
    third chunk of [Teh cat sat teh] cut with a budget of 8. *)
Definition stub_Teh : str -> str -> res (list str) :=
  stub_table
    [(s2l "Teh cat ", jq "[{'misspelled_word':'Teh','suggestion':['The']}]");
     (s2l " teh ",
      jq "Here: [{'misspelled_word':'teh','suggestion':['the','The']}]")].

(** The innermost-to-outermost stack of the JSON reader ends in an open
    array: the text read so far began with a bracket. *)
Definition bottom_arr (stack : list frame) : Prop :=
  exists acc, last stack (FObj [] None) = FArr acc.

(** The reader is inside a text that began with a bracket, or has read
    the whole of it as an array. *)
Definition rooted (stack : list frame) (m : mode) : Prop :=
  (stack = [] /\ exists l, m = MDone (JArr l)) \/
  (bottom_arr stack /\ forall v, m <> MDone v).

(** A chunk that holds at least one character. *)
Definition nonempty (c : str) : Prop := c <> [].

(** The sum of the lengths of chunks: the running offset after them. *)
Definition total_len (chunks : list str) : Z :=
  fold_right (fun c n => len c + n) 0 chunks.

(** Two ranges in scan order: the later one starts behind the start of the
    earlier one and not before its end. *)
Definition range_before (x y : Z * Z) : Prop :=
  fst x < fst y /\ snd x <= fst y.


(** [e'] is [e] after later reports: the same word, the ranges of [e] with
    more behind them, and a list of suggestions only with more behind it. *)
Definition extends (e e' : correction) : Prop :=
  word e' = word e /\
  (exists extra, positions e' = positions e ++ extra) /\
  (forall l, suggestions e = JArr l ->
             exists extra, suggestions e' = JArr (l ++ extra)).

(** * Properties *)

(** ** Strings *)

Lemma len_app (a b : str) : len (a ++ b) = len a + len b.
Proof. unfold len. rewrite length_app. lia. Qed.

Lemma len_cons (c : ascii) (s : str) : len (c :: s) = 1 + len s.
Proof. unfold len. simpl length. lia. Qed.

Lemma len_nonneg (s : str) : 0 <= len s.
Proof. unfold len. lia. Qed.

Lemma split_nonempty (sep : ascii) (s : str) : split sep s <> [].
Proof.
  destruct s as [|c r]; simpl; [discriminate|].
  destruct (Ascii.eqb c sep); [discriminate|].
  destruct (split sep r); discriminate.
Qed.

(** ** Chunker *)

Section Chunker.

Variable max_chars : Z.

Lemma render_first_snoc (g : list str) (w : str) :
  render_first (g ++ [w]) = render_first g ++ w ++ [space].
Proof.
  unfold render_first. rewrite map_app, concat_app. simpl.
  now rewrite app_nil_r.
Qed.

Lemma render_next_snoc (g : list str) (w : str) :
  render_next (g ++ [w]) = render_next g ++ w ++ [space].
Proof. unfold render_next. now rewrite render_first_snoc. Qed.

Lemma render_next_single (w : str) :
  render_next [w] = [space] ++ w ++ [space].
Proof. unfold render_next, render_first. simpl. now rewrite app_nil_r. Qed.

Lemma chunk_step_grouped g0 gs st w :
  grouped g0 gs st ->
  exists g0' gs',
    grouped g0' gs' (chunk_step max_chars st w) /\
    g0' ++ concat gs' = (g0 ++ concat gs) ++ [w].
Proof.
  intros [h0|h0 hs g]; unfold chunk_step;
    destruct (_ >? max_chars).
  - exists h0, ([] ++ [[w]]). split.
    + rewrite <- render_next_single. apply (grouped_next h0 [] [w]).
    + simpl. now rewrite !app_nil_r.
  - exists (h0 ++ [w]), []. split.
    + rewrite <- render_first_snoc. constructor.
    + simpl. now rewrite !app_nil_r.
  - exists h0, ((hs ++ [g]) ++ [[w]]). split.
    + rewrite <- render_next_single.
      replace ((render_first h0 :: map render_next hs) ++ [render_next g])
        with (render_first h0 :: map render_next (hs ++ [g]))
        by (rewrite map_app; reflexivity).
      constructor.
    + rewrite !concat_app. simpl. now rewrite !app_nil_r, !app_assoc.
  - exists h0, (hs ++ [g ++ [w]]). split.
    + rewrite <- render_next_snoc. constructor.
    + rewrite !concat_app. simpl. now rewrite !app_nil_r, !app_assoc.
Qed.

Lemma fold_chunk_step_grouped ws : forall g0 gs st,
  grouped g0 gs st ->
  exists g0' gs',
    grouped g0' gs' (fold_left (chunk_step max_chars) ws st) /\
    g0' ++ concat gs' = (g0 ++ concat gs) ++ ws.
Proof.
  induction ws as [|w ws IH]; intros g0 gs st H; simpl.
  - exists g0, gs. now rewrite app_nil_r.
  - destruct (chunk_step_grouped g0 gs st w H) as (g1 & gs1 & H1 & E1).
    destruct (IH g1 gs1 _ H1) as (g2 & gs2 & H2 & E2).
    exists g2, gs2. split; [exact H2|].
    rewrite E2, E1, <- app_assoc. reflexivity.
Qed.

Lemma chunk_step_truthy st w : truthy (snd (chunk_step max_chars st w)) = true.
Proof.
  destruct st as [parts cur]. unfold chunk_step.
  destruct (_ >? max_chars); simpl.
  - reflexivity.
  - destruct cur; [destruct w|]; reflexivity.
Qed.

Lemma fold_chunk_step_truthy ws : forall st,
  ws <> [] \/ truthy (snd st) = true ->
  truthy (snd (fold_left (chunk_step max_chars) ws st)) = true.
Proof.
  induction ws as [|w ws IH]; intros st H; simpl.
  - destruct H as [H|H]; [congruence|exact H].
  - apply IH. right. apply chunk_step_truthy.
Qed.

Lemma grouped_finish g0 gs parts cur :
  grouped g0 gs (parts, cur) -> parts ++ [cur] = chunks_of_groups g0 gs.
Proof.
  intros H. inversion H; subst; unfold chunks_of_groups; simpl.
  - reflexivity.
  - now rewrite map_app.
Qed.

Lemma chunk_step_within st w :
  len w + 2 <= max_chars -> within max_chars st -> within max_chars (chunk_step max_chars st w).
Proof.
  destruct st as [parts cur]. unfold within, chunk_step. simpl.
  intros Hw [Hp Hc].
  destruct (len cur + len w + 1 >? max_chars) eqn:E; simpl.
  - split.
    + apply Forall_app. split; [exact Hp|]. constructor; [exact Hc|constructor].
    + rewrite len_cons, len_app, len_cons. change (len []) with 0. lia.
  - split; [exact Hp|].
    rewrite !len_app, len_cons. change (len []) with 0. lia.
Qed.

Lemma fold_chunk_step_within ws : forall st,
  Forall (fun w => len w + 2 <= max_chars) ws ->
  within max_chars st -> within max_chars (fold_left (chunk_step max_chars) ws st).
Proof.
  induction ws as [|w ws IH]; intros st Hws Hst; simpl; [exact Hst|].
  inversion Hws; subst. apply IH; [assumption|].
  now apply chunk_step_within.
Qed.

End Chunker.

Example chunk_text_short :
  chunk_text (s2l "I has a apple") 1600 = [s2l "I has a apple"].
Proof. reflexivity. Qed.

Example chunk_text_two :
  chunk_text (s2l "ab cd") 3 = [s2l "ab "; s2l " cd "].
Proof. reflexivity. Qed.

Example chunk_text_long_word :
  chunk_text (s2l "abcdef") 3 = [[]; s2l " abcdef "].
Proof. reflexivity. Qed.

Example chunk_text_three :
  chunk_text (s2l "aa bb cc dd") 6 = [s2l "aa bb "; s2l " cc "; s2l " dd "].
Proof. reflexivity. Qed.

(** C5, the claim as stated fails: a word longer than the budget is never
    broken, so its chunk is longer than [max_chars]. *)
Lemma chunk_text_exceeds_budget :
  len (s2l "abcdef") > 3 /\
  chunk_text (s2l "abcdef") 3 = [[]; s2l " abcdef "] /\
  ~ Forall (fun c => len c <= 3) (chunk_text (s2l "abcdef") 3).
Proof.
  split; [reflexivity|]. split; [reflexivity|].
  intros H. inversion H as [|? ? _ H1]; subst.
  inversion H1 as [|? ? H2 _]; subst.
  vm_compute in H2. apply H2. reflexivity.
Qed.

(** C5, amended: a text within the budget is returned as the one chunk;
    a longer text is cut at spaces only, never inside a word: the chunks
    are a grouping of the words of [s.split(" ")] in their order, every
    word in one chunk; and no chunk is longer than [max_chars] when every
    word has at most [max_chars - 2] characters. *)
Theorem chunk_text_contract (s : str) (max_chars : Z) :
  (len s <= max_chars -> chunk_text s max_chars = [s]) /\
  (max_chars < len s ->
   (exists g0 gs,
      g0 ++ concat gs = split space s /\
      chunk_text s max_chars = chunks_of_groups g0 gs) /\
   (Forall (fun w => len w + 2 <= max_chars) (split space s) ->
    Forall (fun c => len c <= max_chars) (chunk_text s max_chars))).
Proof.
  unfold chunk_text. split.
  - intros H. apply Z.leb_le in H. now rewrite H.
  - intros H. apply Z.leb_gt in H. rewrite H.
    match goal with
    | |- context [fold_left ?f ?l ?a] => set (X := fold_left f l a)
    end.
    assert (T : truthy (snd X) = true).
    { apply fold_chunk_step_truthy. left. apply split_nonempty. }
    assert (G : exists g0 gs,
               grouped g0 gs X /\ g0 ++ concat gs = split space s).
    { apply (fold_chunk_step_grouped max_chars (split space s) [] []).
      apply (grouped_first []). }
    assert (W : Forall (fun w => len w + 2 <= max_chars) (split space s) ->
                within max_chars X).
    { intros W. apply fold_chunk_step_within; [exact W|].
      split; [constructor|]. simpl.
      destruct (split space s) as [|w ws] eqn:S;
        [now apply split_nonempty in S|].
      inversion W; subst. pose proof (len_nonneg w).
      change (len []) with 0. lia. }
    clearbody X. destruct X as [parts cur]. simpl in T. rewrite T.
    split.
    + destruct G as (g0 & gs & G & EQ). exists g0, gs.
      split; [exact EQ|]. now apply grouped_finish.
    + intros HW. destruct (W HW) as [P C]. simpl in P, C.
      apply Forall_app. split; [exact P|]. constructor; [exact C|constructor].
Qed.

Lemma chunk_text_contract_witness :
  (len (s2l "I has a apple") <= 1600 /\
   chunk_text (s2l "I has a apple") 1600 = [s2l "I has a apple"]) /\
  (6 < len (s2l "aa bb cc dd") /\
   Forall (fun w => len w + 2 <= 6) (split space (s2l "aa bb cc dd")) /\
   Forall (fun c => len c <= 6) (chunk_text (s2l "aa bb cc dd") 6)).
Proof.
  assert (S : len (s2l "I has a apple") <= 1600) by (vm_compute; discriminate).
  assert (L : 6 < len (s2l "aa bb cc dd")) by reflexivity.
  assert (W : Forall (fun w => len w + 2 <= 6)
                (split space (s2l "aa bb cc dd"))).
  { repeat constructor; vm_compute; discriminate. }
  split.
  - split; [exact S|].
    exact (proj1 (chunk_text_contract (s2l "I has a apple") 1600) S).
  - split; [exact L|]. split; [exact W|].
    exact (proj2 (proj2 (chunk_text_contract (s2l "aa bb cc dd") 6) L) W).
Defined.

(** C4, at the failing input: the text [ab cd] with a budget of 3 is cut
    into [ab ] and [ cd ], whose concatenation has two characters more than
    the text: the space in front of the second chunk and the space after
    its last word. *)
Theorem chunk_text_concat_differs :
  chunk_text (s2l "ab cd") 3 = [s2l "ab "; s2l " cd "] /\
  concat (chunk_text (s2l "ab cd") 3) = s2l "ab  cd " /\
  concat (chunk_text (s2l "ab cd") 3) <> s2l "ab cd".
Proof.
  split; [reflexivity|]. split; [reflexivity|].
  vm_compute. discriminate.
Qed.

(** C6, at the failing input: a first word that does not fit the budget
    makes the loop append the still empty [current_text], and the empty
    chunk is returned. *)
Theorem chunk_text_empty_chunk :
  chunk_text (s2l "abcdef") 3 = [[]; s2l " abcdef "] /\
  In [] (chunk_text (s2l "abcdef") 3).
Proof. split; [reflexivity|]. left. reflexivity. Qed.

(** ** Response extractor *)

Lemma find_from_spec (c : ascii) (s : str) : forall i,
  (find_from c s i = -1 /\ ~ In c s) \/
  (i <= find_from c s i < i + len s /\
   nth_error s (Z.to_nat (find_from c s i - i)) = Some c /\
   forall k, (k < Z.to_nat (find_from c s i - i))%nat ->
             nth_error s k <> Some c).
Proof.
  induction s as [|d r IH]; intros i; cbn [find_from].
  - left. split; [reflexivity|]. intros [].
  - rewrite len_cons. pose proof (len_nonneg r).
    destruct (Ascii.eqb_spec d c) as [->|N].
    + right. replace (i - i) with 0 by lia.
      change (Z.to_nat 0) with 0%nat. cbn [nth_error].
      repeat split; try lia.
    + destruct (IH (i + 1)) as [[E NI]|(B & NT & MIN)].
      * left. split; [exact E|]. intros [->|K]; tauto.
      * right.
        remember (find_from c r (i + 1)) as f.
        replace (Z.to_nat (f - i)) with (S (Z.to_nat (f - (i + 1)))) by lia.
        cbn [nth_error]. repeat split; try lia; [exact NT|].
        intros [|k] Hk; cbn [nth_error]; [congruence|]. apply MIN. lia.
Qed.

Lemma rfind_from_spec (c : ascii) (s : str) : forall i, 0 <= i ->
  (rfind_from c s i = -1 /\ ~ In c s) \/
  (i <= rfind_from c s i < i + len s /\
   nth_error s (Z.to_nat (rfind_from c s i - i)) = Some c /\
   forall k, (Z.to_nat (rfind_from c s i - i) < k)%nat ->
             nth_error s k <> Some c).
Proof.
  induction s as [|d r IH]; intros i Hi; cbn [rfind_from].
  - left. split; [reflexivity|]. intros [].
  - rewrite len_cons. pose proof (len_nonneg r).
    destruct (IH (i + 1) ltac:(lia)) as [[E NI]|(B & NT & MAX)].
    + rewrite E. change (-1 =? -1) with true. cbv iota.
      destruct (Ascii.eqb_spec d c) as [->|N].
      * right. replace (i - i) with 0 by lia.
        change (Z.to_nat 0) with 0%nat. cbn [nth_error].
        repeat split; try lia.
        intros [|k] Hk; [lia|]. cbn [nth_error]. intros K.
        apply NI. eapply nth_error_In. exact K.
      * left. split; [reflexivity|]. intros [->|K]; tauto.
    + remember (rfind_from c r (i + 1)) as f.
      destruct (Z.eqb_spec f (-1)) as [->|_]; [lia|].
      right.
      replace (Z.to_nat (f - i)) with (S (Z.to_nat (f - (i + 1)))) by lia.
      cbn [nth_error]. repeat split; try lia; [exact NT|].
      intros [|k] Hk; [lia|]. cbn [nth_error]. apply MAX. lia.
Qed.

Lemma bottom_arr_cons (f g : frame) (st : list frame) :
  bottom_arr (f :: g :: st) <-> bottom_arr (g :: st).
Proof. unfold bottom_arr. reflexivity. Qed.

Lemma bottom_arr_nonempty (stack : list frame) : bottom_arr stack -> stack <> [].
Proof. intros [acc H] ->. discriminate. Qed.

Lemma bottom_arr_push (f : frame) (stack : list frame) :
  bottom_arr stack -> bottom_arr (f :: stack).
Proof.
  intros B. destruct stack as [|g st]; [now apply bottom_arr_nonempty in B|].
  now apply bottom_arr_cons.
Qed.

Lemma bottom_arr_top (f g : frame) (st : list frame) :
  (st = [] -> exists acc, g = FArr acc) ->
  bottom_arr (f :: st) -> bottom_arr (g :: st).
Proof.
  intros T B. destruct st as [|h st].
  - destruct (T eq_refl) as [acc ->]. now exists acc.
  - now apply bottom_arr_cons in B; apply bottom_arr_cons.
Qed.

Lemma reduce_rooted (v : json) (stack stack' : list frame) (m' : mode) :
  bottom_arr stack \/ (stack = [] /\ exists l, v = JArr l) ->
  reduce v stack = Some (stack', m') -> rooted stack' m'.
Proof.
  intros [B|[-> [l ->]]].
  - destruct stack as [|[acc|acc [k|]] st]; cbn [reduce];
      [now apply bottom_arr_nonempty in B| | |discriminate];
      intros [= <- <-]; right; (split; [|discriminate]).
    + apply (bottom_arr_top (FArr acc) (FArr (v :: acc)) st); [eauto|exact B].
    + destruct st as [|h st]; [destruct B; discriminate|].
      now apply bottom_arr_cons in B; apply bottom_arr_cons.
  - cbn [reduce]. intros [= <- <-]. left. eauto.
Qed.

Lemma bottom_arr_pop (f : frame) (st : list frame) :
  bottom_arr (f :: st) -> bottom_arr st \/ (st = [] /\ exists acc, f = FArr acc).
Proof.
  intros B. destruct st as [|h st].
  - right. split; [reflexivity|exact B].
  - left. now apply bottom_arr_cons in B.
Qed.

Lemma parse_step_rooted (stack stack' : list frame) (m m' : mode) (t : token) :
  rooted stack m -> parse_step stack m t = Some (stack', m') -> rooted stack' m'.
Proof.
  intros [[-> [l ->]]|[B N]]; [discriminate|].
  assert (V : value_token t stack = Some (stack', m') -> rooted stack' m').
  { unfold value_token. destruct t; try discriminate.
    - intros [= <- <-]. right. split; [now apply bottom_arr_push|discriminate].
    - intros [= <- <-]. right. split; [now apply bottom_arr_push|discriminate].
    - apply reduce_rooted. now left.
    - destruct (bare_value s); [|discriminate]. apply reduce_rooted. now left. }
  assert (CA : close_array stack = Some (stack', m') -> rooted stack' m').
  { unfold close_array. destruct stack as [|[acc|acc k] st]; try discriminate.
    apply reduce_rooted. destruct (bottom_arr_pop _ _ B) as [H|[-> _]]; eauto. }
  assert (CO : close_object stack = Some (stack', m') -> rooted stack' m').
  { unfold close_object. destruct stack as [|[acc|acc [k|]] st]; try discriminate.
    apply reduce_rooted. destruct (bottom_arr_pop _ _ B) as [H|[_ [acc' E]]];
      [now left|discriminate]. }
  assert (SK : forall k, set_key k stack = Some (stack', m') -> rooted stack' m').
  { intros k. unfold set_key. destruct stack as [|[acc|acc [k'|]] st]; try discriminate.
    intros [= <- <-]. right. split; [|discriminate].
    apply (bottom_arr_top (FObj acc None) (FObj acc (Some k)) st); [|exact B].
    intros ->. destruct B; discriminate. }
  destruct m; cbn [parse_step];
    try (now destruct (N v));
    destruct t; try discriminate;
    try exact V; try exact CA; try exact CO; try apply SK.
  - intros [= <- <-]. right. split; [exact B|discriminate].
  - destruct stack as [|[acc|acc k] st]; try discriminate;
      intros [= <- <-]; right; (split; [exact B|discriminate]).
Qed.

Lemma parse_rooted (ts : list token) : forall stack m v,
  rooted stack m -> parse ts stack m = Some v -> exists l, v = JArr l.
Proof.
  induction ts as [|t ts IH]; intros stack m v R; cbn [parse].
  - destruct R as [[_ [l ->]]|[_ N]].
    + intros [= <-]. eauto.
    + destruct m; try discriminate. now destruct (N v0).
  - destruct (parse_step stack m t) as [[stack' m']|] eqn:E; [|discriminate].
    apply IH. exact (parse_step_rooted _ _ _ _ _ R E).
Qed.

(** A text that begins with a bracket is read as a list or not at all. *)
Lemma loads_bracket (r : str) (v : json) :
  loads ("["%char :: r) = Some v -> exists l, v = JArr l.
Proof.
  unfold loads. cbn [lex].
  change (lex_start "[") with (Some ([TLBracket], LIdle)). cbv iota.
  destruct (lex LIdle r) as [ts|]; [|discriminate]. cbn [emit app parse].
  change (parse_step [] MValue TLBracket)
    with (Some ([FArr []], MValueOrClose)). cbv iota.
  apply parse_rooted. right. split; [now exists []|discriminate].
Qed.

Lemma skipn_nth_error {A} (s : list A) : forall n c,
  nth_error s n = Some c -> skipn n s = c :: skipn (S n) s.
Proof.
  induction s as [|d s IH]; intros [|n] c; cbn [nth_error]; try discriminate.
  - now intros [= ->].
  - intros H. cbn [skipn]. now apply IH.
Qed.

Lemma slice_head (s : str) (a b : Z) (c : ascii) :
  nth_error s (Z.to_nat a) = Some c -> a < b ->
  exists r, slice s a b = c :: r.
Proof.
  intros N L. unfold slice. rewrite (skipn_nth_error s _ c N).
  replace (Z.to_nat (b - a)) with (S (Z.to_nat (b - a - 1))) by lia.
  cbn [firstn]. eauto.
Qed.

Lemma extract_json_list_is_list (text : str) :
  exists items, _extract_json_list text = JArr items.
Proof.
  unfold _extract_json_list.
  destruct ((find text "[" =? -1) || (rfind text "]" =? -1)
            || (rfind text "]" <=? find text "[")) eqn:G; [now exists []|].
  apply orb_false_iff in G. destruct G as [G G3].
  apply orb_false_iff in G. destruct G as [G1 G2].
  apply Z.eqb_neq in G1. apply Z.leb_gt in G3.
  destruct (find_from_spec "["%char text 0) as [[E _]|(_ & N & _)];
    [now unfold find in G1|].
  fold (find text "[") in N. rewrite Z.sub_0_r in N.
  destruct (slice_head text (find text "[") (rfind text "]" + 1) _ N
              ltac:(lia)) as [r ->].
  destruct (loads ("["%char :: r)) as [v|] eqn:L; [|now exists []].
  exact (loads_bracket r v L).
Qed.

(** C9: the extractor takes the first [[] and the last []] of the text and
    reads the characters from the one to the other with [json.loads]; it
    returns the empty list when one of the two is missing, when the last
    []] is not behind the first [[], and when the reading fails; it always
    returns a value, and that value is a list; and the text
    [blah [1,2,3] blah] gives [[1,2,3]]. *)
Theorem extract_json_list_contract :
  (forall text : str,
     let start := find text "["%char in
     let end_ := rfind text "]"%char in
     (start = -1 <-> ~ In "["%char text) /\
     (end_ = -1 <-> ~ In "]"%char text) /\
     (start <> -1 ->
      0 <= start < len text /\
      nth_error text (Z.to_nat start) = Some "["%char /\
      forall k, (k < Z.to_nat start)%nat -> nth_error text k <> Some "["%char) /\
     (end_ <> -1 ->
      0 <= end_ < len text /\
      nth_error text (Z.to_nat end_) = Some "]"%char /\
      forall k, (Z.to_nat end_ < k)%nat -> nth_error text k <> Some "]"%char) /\
     (start = -1 \/ end_ = -1 \/ end_ <= start ->
      _extract_json_list text = JArr []) /\
     (start <> -1 -> end_ <> -1 -> start < end_ ->
      _extract_json_list text =
        match loads (slice text start (end_ + 1)) with
        | Some v => v
        | None => JArr []
        end) /\
     (loads (slice text start (end_ + 1)) = None ->
      _extract_json_list text = JArr []) /\
     (exists items, _extract_json_list text = JArr items)) /\
  _extract_json_list (s2l "blah [1,2,3] blah") = JArr [JInt 1; JInt 2; JInt 3] /\
  _extract_json_list (s2l "no brackets here") = JArr [] /\
  _extract_json_list (s2l "] before [") = JArr [] /\
  _extract_json_list (s2l "blah [1,2 blah] [") = JArr [].
Proof.
  split; [|repeat split; reflexivity].
  intros text start end_.
  pose proof (find_from_spec "["%char text 0) as F.
  pose proof (rfind_from_spec "]"%char text 0 ltac:(lia)) as R.
  fold (find text "["%char) in F. fold start in F.
  fold (rfind text "]"%char) in R. fold end_ in R.
  rewrite !Z.sub_0_r in F, R. rewrite !Z.add_0_l in F, R.
  assert (G : (start =? -1) || (end_ =? -1) || (end_ <=? start) = true <->
              (start = -1 \/ end_ = -1 \/ end_ <= start)).
  { rewrite !orb_true_iff, !Z.eqb_eq, Z.leb_le. tauto. }
  refine (conj _ (conj _ (conj _ (conj _ (conj _ (conj _ (conj _ _))))))).
  - split.
    + intros S. destruct F as [[E N]|(B & _)]; [exact N|lia].
    + intros N. destruct F as [[E _]|(_ & K & _)]; [exact E|].
      exfalso. apply N. eapply nth_error_In. exact K.
  - split.
    + intros S. destruct R as [[E N]|(B & _)]; [exact N|lia].
    + intros N. destruct R as [[E _]|(_ & K & _)]; [exact E|].
      exfalso. apply N. eapply nth_error_In. exact K.
  - intros S. destruct F as [[E _]|(B & K & M)]; [congruence|].
    split; [lia|]. split; [exact K|exact M].
  - intros S. destruct R as [[E _]|(B & K & M)]; [congruence|].
    split; [lia|]. split; [exact K|exact M].
  - intros K. apply G in K. unfold _extract_json_list.
    fold start. fold end_. now rewrite K.
  - intros K1 K2 K3. unfold _extract_json_list. fold start. fold end_.
    assert (N : (start =? -1) || (end_ =? -1) || (end_ <=? start) = false).
    { apply not_true_is_false. rewrite G. lia. }
    now rewrite N.
  - intros K. unfold _extract_json_list. fold start. fold end_.
    destruct ((start =? -1) || (end_ =? -1) || (end_ <=? start));
      [reflexivity|]. now rewrite K.
  - apply extract_json_list_is_list.
Qed.

Lemma extract_json_list_contract_witness :
  (find (s2l "blah [1,2,3] blah") "["%char = 5 /\
   rfind (s2l "blah [1,2,3] blah") "]"%char = 11 /\
   _extract_json_list (s2l "blah [1,2,3] blah") =
     match loads (slice (s2l "blah [1,2,3] blah") 5 (11 + 1)) with
     | Some v => v
     | None => JArr []
     end) /\
  (rfind (s2l "] before [") "]"%char <= find (s2l "] before [") "["%char /\
   _extract_json_list (s2l "] before [") = JArr []) /\
  (loads (slice (s2l "blah [1,2 blah] [") 5 (14 + 1)) = None /\
   _extract_json_list (s2l "blah [1,2 blah] [") = JArr []).
Proof.
  split; [|split].
  - split; [reflexivity|]. split; [reflexivity|].
    apply (proj1 (proj2 (proj2 (proj2 (proj2 (proj2
             (proj1 extract_json_list_contract (s2l "blah [1,2,3] blah")))))))).
    + vm_compute. discriminate.
    + vm_compute. discriminate.
    + reflexivity.
  - assert (G : rfind (s2l "] before [") "]"%char
                <= find (s2l "] before [") "["%char)
      by (vm_compute; discriminate).
    split; [exact G|].
    apply (proj1 (proj2 (proj2 (proj2 (proj2
             (proj1 extract_json_list_contract (s2l "] before ["))))))).
    right. right. exact G.
  - split; [reflexivity|].
    apply (proj1 (proj2 (proj2 (proj2 (proj2 (proj2 (proj2
             (proj1 extract_json_list_contract (s2l "blah [1,2 blah] ["))))))))).
    reflexivity.
Defined.

(** ** Occurrence scan *)

Module ReFacts.
Import Re.

Lemma last_char_app prev a b :
  last_char prev (a ++ b) = last_char (last_char prev a) b.
Proof. unfold last_char. apply fold_left_app. Qed.


Lemma match_here_nonneg atoms ic : forall prev s n,
  match_here atoms ic prev s = Some n -> 0 <= n.
Proof.
  induction atoms as [|a atoms IH]; intros prev s n; cbn [match_here].
  - intros [= <-]. lia.
  - destruct a.
    + destruct s as [|d s']; [discriminate|].
      destruct (char_matches ic c d); [|discriminate].
      destruct (match_here atoms ic (Some d) s') eqn:E; [|discriminate].
      intros [= <-]. apply IH in E. lia.
    + destruct s as [|d s']; [discriminate|].
      destruct (code d =? 10); [discriminate|].
      destruct (match_here atoms ic (Some d) s') eqn:E; [|discriminate].
      intros [= <-]. apply IH in E. lia.
    + destruct (xorb _ _); [apply IH|discriminate].
Qed.

Lemma scan_unfold atoms ic prev s pos skip :
  scan atoms ic prev s pos skip =
  (match skip with
   | O => match match_here atoms ic prev s with
          | Some n => [(pos, pos + n)]
          | None => []
          end
   | S _ => []
   end) ++
  match s with
  | [] => []
  | c :: r =>
      scan atoms ic (Some c) r (pos + 1)
        (match skip with
         | S k => k
         | O => match match_here atoms ic prev s with
                | Some n => pred (Z.to_nat n)
                | None => O
                end
         end)
  end.
Proof.
  destruct s; cbn [scan]; destruct skip;
    try destruct (match_here atoms ic prev _); reflexivity.
Qed.

(** Every pair the scan reports is a match of the pattern at its place. *)
Lemma scan_sound atoms ic : forall s prev pos skip a b,
  In (a, b) (scan atoms ic prev s pos skip) ->
  exists pre t,
    s = pre ++ t /\ a = pos + len pre /\
    match_here atoms ic (last_char prev pre) t = Some (b - a).
Proof.
  induction s as [|c r IH]; intros prev pos skip a b; rewrite scan_unfold;
    intros H; apply in_app_or in H; destruct H as [H|H].
  - destruct skip; [|destruct H].
    destruct (match_here atoms ic prev []) eqn:E; [|destruct H].
    destruct H as [[= <- <-]|[]]. exists [], []. cbn.
    repeat split; [lia|]. rewrite E. f_equal. lia.
  - destruct H.
  - destruct skip; [|destruct H].
    destruct (match_here atoms ic prev (c :: r)) eqn:E; [|destruct H].
    destruct H as [[= <- <-]|[]]. exists [], (c :: r). cbn [app last_char fold_left].
    repeat split; [change (len []) with 0; lia|]. rewrite E. f_equal. lia.
  - apply IH in H. destruct H as (pre & t & -> & -> & M).
    exists (c :: pre), t. rewrite len_cons. repeat split; [lia|].
    cbn [last_char fold_left]. exact M.
Qed.


Lemma special_char_facts (c : ascii) :
  (is_special c = true ->
   Ascii.eqb c "b"%char = false /\ is_alnum c = false) /\
  (is_special c = false ->
   Ascii.eqb c backslash = false /\ Ascii.eqb c "."%char = false /\
   is_operator c = false).
Proof.
  destruct c as [b0 b1 b2 b3 b4 b5 b6 b7].
  destruct b0, b1, b2, b3, b4, b5, b6, b7; vm_compute;
    split; intros H; try discriminate H; repeat split.
Qed.


(** An escaped word is read back as its characters, one literal each. *)
Lemma compile_escape (w p : str) (atoms : list atom) :
  compile p = Some atoms ->
  compile (escape w ++ p) = Some (map Lit w ++ atoms).
Proof.
  intros P. induction w as [|c w IH]; [exact P|].
  unfold escape in *. cbn [flat_map map app].
  destruct (special_char_facts c) as [S N].
  destruct (is_special c).
  - destruct (S eq_refl) as [B A]. cbn [app compile].
    change (Ascii.eqb backslash backslash) with true. cbv iota.
    rewrite B, A, IH. reflexivity.
  - destruct (N eq_refl) as (B & D & O). cbn [app compile].
    rewrite B, D, O, IH. reflexivity.
Qed.

Lemma compile_word_pattern (w : str) :
  compile (s2l "\b" ++ escape w ++ s2l "\b") =
  Some (WordBoundary :: map Lit w ++ [WordBoundary]).
Proof.
  change (s2l "\b" ++ escape w ++ s2l "\b")
    with (backslash :: "b"%char :: (escape w ++ s2l "\b")).
  cbn [compile]. change (Ascii.eqb backslash backslash) with true.
  change (Ascii.eqb "b" "b") with true. cbv iota.
  rewrite (compile_escape w (s2l "\b") [WordBoundary] eq_refl). reflexivity.
Qed.

(** What the literals and the closing boundary match. *)
Lemma match_literals (w : str) : forall prev s n,
  match_here (map Lit w ++ [WordBoundary]) true prev s = Some n <->
  exists m rest,
    s = m ++ rest /\ lower m = lower w /\ n = len w /\
    word_boundary (last_char prev m) (hd_error rest).
Proof.
  induction w as [|c w IH]; intros prev s n; cbn [map app match_here].
  - split.
    + destruct (xorb _ _) eqn:X; [|discriminate]. intros [= <-].
      exists [], s. repeat split. exact X.
    + intros (m & rest & -> & L & -> & B).
      destruct m; [|discriminate]. cbn in B |- *.
      unfold word_boundary in B. cbn in B. now rewrite B.
  - split.
    + destruct s as [|d s']; [discriminate|].
      unfold char_matches. destruct (Ascii.eqb_spec (lower_char c) (lower_char d)) as [E|]; [|discriminate].
      destruct (match_here _ true (Some d) s') as [n'|] eqn:M; [|discriminate].
      intros [= <-]. apply IH in M. destruct M as (m & rest & -> & L & -> & B).
      exists (d :: m), rest. rewrite len_cons. unfold lower in *. cbn [map].
      repeat split; [congruence|lia|exact B].
    + intros (m & rest & -> & L & -> & B).
      destruct m as [|d m]; [discriminate|]. unfold lower in L. cbn [map] in L.
      injection L as L1 L2. cbn [app]. unfold char_matches.
      rewrite <- L1, Ascii.eqb_refl.
      assert (M : match_here (map Lit w ++ [WordBoundary]) true (Some d)
                    (m ++ rest) = Some (len w)).
      { apply IH. exists m, rest. repeat split; assumption. }
      rewrite M. cbn [option_map]. rewrite len_cons. f_equal. lia.
Qed.

Lemma match_word_pattern (w : str) prev s n :
  match_here (WordBoundary :: map Lit w ++ [WordBoundary]) true prev s = Some n <->
  word_boundary prev (hd_error s) /\
  exists m rest,
    s = m ++ rest /\ lower m = lower w /\ n = len w /\
    word_boundary (last_char prev m) (hd_error rest).
Proof.
  cbn [match_here]. unfold word_boundary at 1.
  destruct (xorb (is_word_opt prev) (is_word_opt (hd_error s))).
  - rewrite match_literals. tauto.
  - split; [discriminate|]. intros [H _]. discriminate.
Qed.

End ReFacts.

Lemma lower_len (m w : str) : lower m = lower w -> len m = len w.
Proof.
  intros H. unfold len. f_equal.
  apply (f_equal (@length ascii)) in H. unfold lower in H.
  now rewrite !length_map in H.
Qed.


(** The scan behind [locate], for a reported word that is a string. *)
Lemma locate_scan (ch w : str) (offset : Z) :
  locate ch (JStr w) offset =
  Ok (map (fun m => (offset + fst m, offset + snd m))
        (Re.scan (Re.WordBoundary :: map Re.Lit w ++ [Re.WordBoundary])
           true None ch 0 0)).
Proof.
  unfold locate, word_pattern, Re.finditer. cbn [bind].
  now rewrite ReFacts.compile_word_pattern.
Qed.

Lemma locate_sound (ch w : str) (offset : Z) (ms : list (Z * Z)) (a b : Z) :
  locate ch (JStr w) offset = Ok ms -> In (a, b) ms ->
  exists pre m rest,
    occurrence ch w pre m rest /\
    a = offset + len pre /\ b = offset + len pre + len m.
Proof.
  rewrite locate_scan. intros [= <-] I.
  apply in_map_iff in I. destruct I as ([a0 b0] & E & I).
  cbn [fst snd] in E. injection E as <- <-.
  apply ReFacts.scan_sound in I. destruct I as (pre & t & -> & -> & M).
  apply ReFacts.match_word_pattern in M.
  destruct M as (B1 & m & rest & -> & L & N & B2).
  exists pre, m, rest. split.
  - repeat split; [exact L|exact B1|]. now rewrite ReFacts.last_char_app.
  - rewrite (lower_len m w L). split; lia.
Qed.





(** ** Correction aggregator *)

Lemma str_eqb_eq (a b : str) : str_eqb a b = true <-> a = b.
Proof.
  unfold str_eqb. destruct (list_eq_dec ascii_dec a b); split; congruence.
Qed.

Lemma str_eqb_refl (a : str) : str_eqb a a = true.
Proof. now apply str_eqb_eq. Qed.

Lemma str_eqb_neq (a b : str) : str_eqb a b = false <-> a <> b.
Proof.
  unfold str_eqb. destruct (list_eq_dec ascii_dec a b); split; congruence.
Qed.

Lemma str_eqb_sym (a b : str) : str_eqb a b = str_eqb b a.
Proof.
  destruct (str_eqb a b) eqn:E.
  - apply str_eqb_eq in E. subst. now rewrite str_eqb_refl.
  - apply str_eqb_neq in E. symmetry. apply str_eqb_neq. congruence.
Qed.

Lemma mem_In (s : str) (l : list str) : mem s l = true <-> In s l.
Proof.
  unfold mem. rewrite existsb_exists. split.
  - intros (x & I & E). apply str_eqb_eq in E. now subst.
  - intros I. exists s. split; [exact I|apply str_eqb_refl].
Qed.

Lemma mem_app (s : str) (a b : list str) : mem s (a ++ b) = mem s a || mem s b.
Proof. apply existsb_app. Qed.

Lemma filter_both {A} (f g : A -> bool) (l : list A) :
  filter f (filter g l) = filter (fun x => g x && f x) l.
Proof.
  induction l as [|x l IH]; [reflexivity|]. cbn [filter].
  destruct (g x); cbn [filter andb]; [destruct (f x)|]; now rewrite IH.
Qed.

Lemma dedup_first_In (x : str) (l : list str) : In x (dedup_first l) <-> In x l.
Proof.
  induction l as [|y l IH]; [reflexivity|]. cbn [dedup_first In].
  rewrite filter_In, IH, negb_true_iff, str_eqb_neq.
  destruct (list_eq_dec ascii_dec y x); [tauto|].
  split; [tauto|]. intros [H|H]; [tauto|]. right. split; congruence.
Qed.

Lemma NoDup_filter {A} (f : A -> bool) (l : list A) : NoDup l -> NoDup (filter f l).
Proof.
  induction 1 as [|x l N _ IH]; cbn [filter]; [constructor|].
  destruct (f x); [|exact IH]. constructor; [|exact IH].
  rewrite filter_In. tauto.
Qed.

Lemma NoDup_dedup_first (l : list str) : NoDup (dedup_first l).
Proof.
  induction l as [|x l IH]; cbn [dedup_first]; constructor.
  - rewrite filter_In, negb_true_iff, str_eqb_neq. tauto.
  - now apply NoDup_filter.
Qed.

Lemma dedup_first_filter (p : str -> bool) (l : list str) :
  dedup_first (filter p l) = filter p (dedup_first l).
Proof.
  induction l as [|x l IH]; [reflexivity|]. cbn [filter dedup_first].
  destruct (p x) eqn:P; cbn [dedup_first filter]; rewrite ?P, IH.
  - f_equal. rewrite !filter_both. apply filter_ext_in. intros a _.
    apply andb_comm.
  - rewrite filter_both. apply filter_ext_in. intros a _.
    destruct (str_eqb a x) eqn:E; [|reflexivity].
    apply str_eqb_eq in E. subst. now rewrite P.
Qed.

Lemma union_loop_spec (news : list str) : forall l,
  union_loop l news = union_first_seen l news.
Proof.
  unfold union_first_seen.
  induction news as [|s r IH]; intros l; cbn [union_loop filter].
  - cbn. now rewrite app_nil_r.
  - destruct (mem s l) eqn:M; cbn [negb]; [apply IH|].
    rewrite IH, <- app_assoc. cbn [app dedup_first]. do 2 f_equal.
    rewrite <- dedup_first_filter, filter_both. f_equal.
    apply filter_ext_in. intros a _. rewrite mem_app. unfold mem at 2.
    cbn [existsb]. rewrite orb_false_r. now rewrite negb_orb.
Qed.

Lemma union_loop_app (a b : list str) : forall l,
  union_loop l (a ++ b) = union_loop (union_loop l a) b.
Proof.
  induction a as [|s a IH]; intros l; cbn [app union_loop]; [reflexivity|].
  destruct (mem s l); apply IH.
Qed.

Lemma union_first_seen_NoDup (old new : list str) :
  NoDup old -> NoDup (union_first_seen old new).
Proof.
  intros N. unfold union_first_seen. apply NoDup_app.
  - exact N.
  - apply NoDup_dedup_first.
  - intros a I. rewrite dedup_first_In, filter_In, negb_true_iff.
    intros [_ M]. apply mem_In in I. congruence.
Qed.

Lemma py_in_strings (s : str) (l : list str) :
  py_in (JStr s) (map JStr l) = mem s l.
Proof.
  unfold py_in, mem. induction l as [|x l IH]; [reflexivity|].
  cbn [map existsb py_eq]. now rewrite IH.
Qed.

Lemma unify_step_strings (s : str) (l : list str) :
  unify_step (JArr (map JStr l), map JStr l) (JStr s) =
  Ok (if mem s l then (JArr (map JStr l), map JStr l)
      else (JArr (map JStr (l ++ [s])), map JStr (l ++ [s]))).
Proof.
  unfold unify_step. cbn [hashable negb].
  rewrite py_in_strings. destruct (mem s l); cbn [negb bind py_append].
  - reflexivity.
  - now rewrite map_app.
Qed.

(** The loop that unifies suggestions, on lists of strings. *)
Lemma unify_strings (news : list str) : forall l,
  for_each unify_step (map JStr news) (JArr (map JStr l), map JStr l) =
  Ok (JArr (map JStr (union_loop l news)), map JStr (union_loop l news)).
Proof.
  induction news as [|s r IH]; intros l; cbn [map for_each union_loop];
    [reflexivity|].
  rewrite unify_step_strings. cbn [bind].
  destruct (mem s l); apply IH.
Qed.

Lemma dict_get_mem {V} (k : str) (d : dict V) :
  mem k (keys d) = match dict_get k d with Some _ => true | None => false end.
Proof.
  induction d as [|[k' v] d IH]; [reflexivity|].
  unfold mem, keys in *. cbn [map fst existsb dict_get].
  rewrite (str_eqb_sym k k'). destruct (str_eqb k' k); [reflexivity|exact IH].
Qed.

Lemma dict_set_keys {V} (k : str) (v : V) (d : dict V) :
  keys (dict_set k v d) = if mem k (keys d) then keys d else keys d ++ [k].
Proof.
  induction d as [|[k' v'] d IH]; [reflexivity|].
  unfold mem, keys in *. cbn [map fst existsb dict_set app].
  rewrite (str_eqb_sym k k'). destruct (str_eqb k' k); [reflexivity|].
  cbn [map fst orb]. rewrite IH. now destruct (existsb (str_eqb k) (map fst d)).
Qed.

Lemma dict_get_set {V} (k : str) (v : V) (d : dict V) :
  dict_get k (dict_set k v d) = Some v.
Proof.
  induction d as [|[k' v'] d IH]; cbn [dict_set dict_get].
  - now rewrite str_eqb_refl.
  - destruct (str_eqb k' k) eqn:E; cbn [dict_get]; rewrite E; [reflexivity|exact IH].
Qed.

Lemma forallb_hashable_strings (l : list str) :
  forallb hashable (map JStr l) = true.
Proof. induction l; [reflexivity|exact IHl]. Qed.

Lemma merge_item_again (ch : str) (offset : Z) (g : dict correction)
  (item : json) (w : str) (news : list str) (w0 : json) (olds : list str)
  (p0 : list (Z * Z)) :
  py_get item (s2l "misspelled_word") = Ok (JStr w) ->
  py_get item (s2l "suggestion") = Ok (JArr (map JStr news)) ->
  dict_get (lower w) g = Some (mkCorrection w0 (JArr (map JStr olds)) p0) ->
  exists found,
    locate ch (JStr w) offset = Ok found /\
    merge_item ch offset g item =
      Ok (dict_set (lower w)
            (mkCorrection w0 (JArr (map JStr (union_first_seen olds news)))
               (p0 ++ found)) g).
Proof.
  intros W S G. unfold merge_item. rewrite W, S. cbn [bind].
  rewrite locate_scan. eexists. split; [reflexivity|].
  cbn [bind py_lower]. rewrite G. unfold py_set. cbn [py_iter bind].
  rewrite forallb_hashable_strings. cbn [bind py_iter].
  rewrite unify_strings. cbn [bind fst].
  now rewrite union_loop_spec.
Qed.

Lemma dict_set_Forall {V} (P : str * V -> Prop) (k : str) (v : V) (d : dict V) :
  (forall v', dict_get k d = Some v' -> P (k, v)) ->
  (dict_get k d = None -> P (k, v)) ->
  Forall P d -> Forall P (dict_set k v d).
Proof.
  induction d as [|[k' v'] d IH]; intros S N F; cbn [dict_set].
  - constructor; [now apply N|constructor].
  - inversion F; subst. cbn [dict_get] in S, N.
    destruct (str_eqb k' k) eqn:E.
    + apply str_eqb_eq in E. subst. constructor; [|assumption]. eapply S. reflexivity.
    + constructor; [assumption|]. now apply IH.
Qed.

Lemma dict_get_Forall {V} (P : str * V -> Prop) (k : str) (v : V) (d : dict V) :
  Forall P d -> dict_get k d = Some v -> P (k, v).
Proof.
  induction d as [|[k' v'] d IH]; intros F G; [discriminate|].
  inversion F; subst. cbn [dict_get] in G.
  destruct (str_eqb k' k) eqn:E.
  - apply str_eqb_eq in E. injection G as <-. now subst.
  - now apply IH.
Qed.

(** One step of the aggregator: where the key goes, and that the entry
    lies under the lower-case form of its word. *)
Lemma merge_item_keys (ch : str) (offset : Z) (g g' : dict correction)
  (item : json) :
  merge_item ch offset g item = Ok g' ->
  keys g' = union_loop (keys g) [item_key item] /\
  (keyed g -> keyed g').
Proof.
  unfold merge_item, item_key.
  destruct (py_get item (s2l "misspelled_word")) as [w|]; [|discriminate].
  cbn [bind]. destruct (py_get item (s2l "suggestion")) as [sugg|]; [|discriminate].
  cbn [bind]. destruct (locate ch w offset) as [found|]; [|discriminate].
  cbn [bind]. destruct w as [| | | |w| |]; try discriminate.
  cbn [py_lower bind union_loop].
  destruct (dict_get (lower w) g) as [[w0 s0 p0]|] eqn:G.
  - destruct (py_set s0) as [seen|]; [|discriminate]. cbn [bind].
    destruct (py_iter sugg) as [new|]; [|discriminate]. cbn [bind].
    destruct (for_each unify_step new (s0, seen)) as [st|]; [|discriminate].
    cbn [bind]. intros [= <-]. rewrite dict_set_keys, dict_get_mem, G. split.
    + reflexivity.
    + intros K. apply dict_set_Forall; [|congruence|exact K].
      intros _ _. exact (dict_get_Forall _ _ _ _ K G).
  - intros [= <-]. rewrite dict_set_keys, dict_get_mem, G. split.
    + reflexivity.
    + intros K. apply dict_set_Forall; [congruence| |exact K].
      intros _. reflexivity.
Qed.

Lemma merge_items_keys (ch : str) (offset : Z) (items : list json) :
  forall g g',
  for_each (merge_item ch offset) items g = Ok g' ->
  keys g' = union_loop (keys g) (map item_key items) /\
  (keyed g -> keyed g').
Proof.
  induction items as [|item items IH]; intros g g'; cbn [for_each map].
  - intros [= <-]. split; [reflexivity|tauto].
  - destruct (merge_item ch offset g item) as [g1|] eqn:M; [|discriminate].
    cbn [bind]. intros F. apply merge_item_keys in M. destruct M as [K1 P1].
    apply IH in F. destruct F as [K2 P2]. split; [|tauto].
    rewrite K2, K1. symmetry. apply (union_loop_app [item_key item]).
Qed.

Lemma chunk_loop_keys (ollama_stream : str -> str -> res (list str))
  (model : str) (chunks : list str) :
  forall g offset g' offset',
  for_each (chunk_body ollama_stream model) chunks (g, offset) = Ok (g', offset') ->
  keys g' =
    union_loop (keys g)
      (map item_key (flat_map (reported_items ollama_stream model) chunks)) /\
  (keyed g -> keyed g').
Proof.
  induction chunks as [|ch chunks IH]; intros g offset g' offset';
    cbn [for_each flat_map map].
  - intros [= <- <-]. split; [reflexivity|tauto].
  - unfold chunk_body at 1, reported_items at 1.
    destruct (_ollama_generate ollama_stream model (spellcheck_prompt ch))
      as [raw|]; [|discriminate].
    cbn [bind]. destruct (py_iter (_extract_json_list raw)) as [items|];
      [|discriminate].
    cbn [bind].
    destruct (for_each (merge_item ch offset) items g) as [g1|] eqn:M;
      [|discriminate].
    cbn [bind]. intros F. apply merge_items_keys in M. destruct M as [K1 P1].
    apply IH in F. destruct F as [K2 P2]. split; [|tauto].
    rewrite K2, K1, map_app. symmetry. apply union_loop_app.
Qed.

Lemma keyed_values (g : dict correction) :
  keyed g -> map (fun c => py_lower (word c)) (values g) = map Ok (keys g).
Proof.
  induction 1 as [|[k c] g H _ IH]; [reflexivity|].
  unfold values, keys in *. cbn [map fst snd] in *. now rewrite H, IH.
Qed.

Lemma union_first_seen_nil (l : list str) : union_first_seen [] l = dedup_first l.
Proof.
  unfold union_first_seen. cbn [app]. f_equal.
  induction l as [|x l IH]; [reflexivity|]. cbn [filter].
  change (mem x []) with false. cbn [negb]. now rewrite IH.
Qed.

(** X21: where the stored suggestions of a key and the suggestion of a
    later report are both lists of strings, the later report appends its
    positions to the stored ones and adds to the stored suggestions those
    not yet present, each once and in the order of the report, the key
    keeping its place; whatever the shapes, the keys of the result are the
    keys of the reported items in the order of their first report, and the
    output lists the entries in that order; the reports of [Teh] with
    [[The]] and of [teh] with [[the, The]] give the one correction [Teh]
    with [[The, the]] and the positions of both chunks. *)
Theorem aggregator_contract :
  (forall (ch : str) (offset : Z) (g : dict correction) (item : json)
          (w : str) (news : list str) (w0 : json) (olds : list str)
          (p0 : list (Z * Z)),
     py_get item (s2l "misspelled_word") = Ok (JStr w) ->
     py_get item (s2l "suggestion") = Ok (JArr (map JStr news)) ->
     dict_get (lower w) g = Some (mkCorrection w0 (JArr (map JStr olds)) p0) ->
     exists found g',
       locate ch (JStr w) offset = Ok found /\
       merge_item ch offset g item = Ok g' /\
       g' = dict_set (lower w)
              (mkCorrection w0 (JArr (map JStr (union_first_seen olds news)))
                 (p0 ++ found)) g /\
       keys g' = keys g /\
       (NoDup olds -> NoDup (union_first_seen olds news))) /\
  (forall (ollama_stream : str -> str -> res (list str)) (model : str)
          (chunks : list str) (g' : dict correction) (offset' : Z),
     for_each (chunk_body ollama_stream model) chunks ([], 0) = Ok (g', offset') ->
     keys g' =
       dedup_first
         (map item_key (flat_map (reported_items ollama_stream model) chunks)) /\
     map (fun c => py_lower (word c)) (values g') = map Ok (keys g')) /\
  (g1 <- merge_item (s2l "Teh cat ") 0 [] item_Teh ;;
   merge_item (s2l " teh ") 13 g1 item_teh) =
    Ok [(s2l "teh", entry_Teh [(0, 3); (14, 17)] [s2l "The"; s2l "the"])] /\
  fst (spellcheck stub_hash stub_Teh 0 0
         (mkSpellcheckRequest (s2l "Teh cat sat teh") (Some (s2l "m")) 8) []) =
    Ok (RCorrections
          (VCorrections [entry_Teh [(0, 3); (14, 17)] [s2l "The"; s2l "the"]])).
Proof.
  split; [|split; [|split; vm_compute; reflexivity]].
  - intros ch offset g item w news w0 olds p0 W S G.
    destruct (merge_item_again ch offset g item w news w0 olds p0 W S G)
      as (found & L & M).
    exists found. eexists. split; [exact L|]. split; [exact M|].
    split; [reflexivity|]. split.
    + rewrite dict_set_keys, dict_get_mem, G. reflexivity.
    + apply union_first_seen_NoDup.
  - intros ollama_stream model chunks g' offset' F.
    apply chunk_loop_keys in F. destruct F as [K P]. split.
    + rewrite K, union_loop_spec. apply union_first_seen_nil.
    + apply keyed_values, P. constructor.
Qed.

Lemma aggregator_contract_witness :
  (exists found g',
     locate (s2l " teh ") (JStr (s2l "teh")) 13 = Ok found /\
     merge_item (s2l " teh ") 13
       [(s2l "teh", entry_Teh [(0, 3)] [s2l "The"])] item_teh = Ok g' /\
     g' = [(s2l "teh",
            entry_Teh ([(0, 3)] ++ found)
              (union_first_seen [s2l "The"] [s2l "the"; s2l "The"]))]) /\
  keys [(s2l "teh", entry_Teh [(0, 3); (14, 17)] [s2l "The"; s2l "the"])] =
    dedup_first
      (map item_key
         (flat_map (reported_items stub_Teh (s2l "m"))
            (chunk_text (s2l "Teh cat sat teh") 8))).
Proof.
  split.
  - destruct (proj1 aggregator_contract (s2l " teh ") 13
                [(s2l "teh", entry_Teh [(0, 3)] [s2l "The"])] item_teh
                (s2l "teh") [s2l "the"; s2l "The"] (JStr (s2l "Teh"))
                [s2l "The"] [(0, 3)] eq_refl eq_refl eq_refl)
      as (found & g' & L & M & E & _).
    exists found, g'. split; [exact L|]. split; [exact M|]. exact E.
  - apply (proj1 (proj2 aggregator_contract) stub_Teh (s2l "m")
             (chunk_text (s2l "Teh cat sat teh") 8)
             [(s2l "teh", entry_Teh [(0, 3); (14, 17)] [s2l "The"; s2l "the"])]
             18).
    vm_compute. reflexivity.
Defined.

(** ** The endpoint on replies of unexpected shape *)

(** C2, at the failing input: for the text [I has a apple] and the reply
    [[{"misspelled_word":"has","suggestion":"have"}]] the correction holds
    the string [have] itself, not the list of it: a first report stores the
    value as the model gave it.  A later report of the key then iterates
    over characters, and raises as soon as one of them is new. *)
Theorem spellcheck_scalar_suggestion :
  fst (spellcheck stub_hash
         (stub_const (jq "[{'misspelled_word':'has','suggestion':'have'}]"))
         0 0
         (mkSpellcheckRequest (s2l "I has a apple") (Some (s2l "m")) 1600) []) =
    Ok (RCorrections
          (VCorrections
             [mkCorrection (JStr (s2l "has")) (JStr (s2l "have")) [(2, 5)]])) /\
  JStr (s2l "have") <> JArr [JStr (s2l "have")] /\
  fst (spellcheck stub_hash
         (stub_table
            [(s2l "Teh cat ", jq "[{'misspelled_word':'Teh','suggestion':'The'}]");
             (s2l " teh ", jq "[{'misspelled_word':'teh','suggestion':'the'}]")])
         0 0
         (mkSpellcheckRequest (s2l "Teh cat sat teh") (Some (s2l "m")) 8) []) =
    Raise AttributeError.
Proof.
  split; [vm_compute; reflexivity|]. split; [discriminate|].
  vm_compute; reflexivity.
Qed.

(** C3, at the failing input: an element of the reply that is no object
    makes [item.get] raise, an object without the word makes [re.escape]
    raise, and the exception reaches the caller. *)
Theorem spellcheck_malformed_item_raises :
  _extract_json_list (s2l "blah [1,2,3] blah") = JArr [JInt 1; JInt 2; JInt 3] /\
  fst (spellcheck stub_hash (stub_const (s2l "blah [1,2,3] blah")) 0 0
         (mkSpellcheckRequest (s2l "I has a apple") (Some (s2l "m")) 1600) []) =
    Raise AttributeError /\
  fst (spellcheck stub_hash (stub_const (jq "[{'suggestion':'have'}]")) 0 0
         (mkSpellcheckRequest (s2l "I has a apple") (Some (s2l "m")) 1600) []) =
    Raise TypeError /\
  fst (spellcheck stub_hash
         (stub_const
            (jq "[{'misspelled_word':'has','suggestion':['have']}, {'misspelled_word':'has','suggestion':7}]"))
         0 0
         (mkSpellcheckRequest (s2l "I has a apple") (Some (s2l "m")) 1600) []) =
    Raise TypeError.
Proof. repeat split; vm_compute; reflexivity. Qed.

(** C7, at the failing input: two chunks report [Teh] and [teh] with the
    suggestions [The] and [the], each a string as the prompt asks.  The
    later report does not add [the] to the suggestions: the merge draws the
    characters of the string and raises [AttributeError] at the first new
    one, in the aggregator and so in the endpoint.  With equal strings
    nothing is added and the stored value stays the string; on a stored
    list a later string is added character by character. *)
Theorem aggregator_scalar_merge_fails :
  (g1 <- merge_item (s2l "Teh cat ") 0 []
           (JObj [(s2l "misspelled_word", JStr (s2l "Teh"));
                  (s2l "suggestion", JStr (s2l "The"))]) ;;
   merge_item (s2l " teh ") 13 g1
     (JObj [(s2l "misspelled_word", JStr (s2l "teh"));
            (s2l "suggestion", JStr (s2l "the"))])) =
    Raise AttributeError /\
  fst (spellcheck stub_hash
         (stub_table
            [(s2l "Teh cat ", jq "[{'misspelled_word':'Teh','suggestion':'The'}]");
             (s2l " teh ", jq "[{'misspelled_word':'teh','suggestion':'the'}]")])
         0 0
         (mkSpellcheckRequest (s2l "Teh cat sat teh") (Some (s2l "m")) 8) []) =
    Raise AttributeError /\
  (g1 <- merge_item (s2l "Teh cat ") 0 []
           (JObj [(s2l "misspelled_word", JStr (s2l "Teh"));
                  (s2l "suggestion", JStr (s2l "The"))]) ;;
   merge_item (s2l " teh ") 13 g1
     (JObj [(s2l "misspelled_word", JStr (s2l "teh"));
            (s2l "suggestion", JStr (s2l "The"))])) =
    Ok [(s2l "teh",
         mkCorrection (JStr (s2l "Teh")) (JStr (s2l "The")) [(0, 3); (14, 17)])] /\
  (g1 <- merge_item (s2l "Teh cat ") 0 []
           (JObj [(s2l "misspelled_word", JStr (s2l "Teh"));
                  (s2l "suggestion", JArr [JStr (s2l "The")])]) ;;
   merge_item (s2l " teh ") 13 g1
     (JObj [(s2l "misspelled_word", JStr (s2l "teh"));
            (s2l "suggestion", JStr (s2l "the"))])) =
    Ok [(s2l "teh",
         mkCorrection (JStr (s2l "Teh"))
           (JArr [JStr (s2l "The"); JStr (s2l "t"); JStr (s2l "h");
                  JStr (s2l "e")])
           [(0, 3); (14, 17)])].
Proof. repeat split; vm_compute; reflexivity. Qed.

(** C1, at the failing input: for the text [ab cd] cut with a budget of 3
    the word [cd] of the second chunk is reported at [[4,6]], past the end
    of the five characters of the text; it stands at [[3,5]]. *)
Theorem spellcheck_positions_drift :
  chunk_text (s2l "ab cd") 3 = [s2l "ab "; s2l " cd "] /\
  fst (spellcheck stub_hash
         (stub_const (jq "[{'misspelled_word':'cd','suggestion':['cd']}]"))
         0 0 (mkSpellcheckRequest (s2l "ab cd") (Some (s2l "m")) 3) []) =
    Ok (RCorrections
          (VCorrections
             [mkCorrection (JStr (s2l "cd")) (JArr [JStr (s2l "cd")]) [(4, 6)]])) /\
  len (s2l "ab cd") = 5 /\
  slice (s2l "ab cd") 3 5 = s2l "cd" /\
  slice (s2l "ab cd") 4 6 = s2l "d".
Proof. repeat split; vm_compute; reflexivity. Qed.

(** ** Result cache *)

Section Cache.

Variable sha256_hex : str -> str.

Lemma cache_get_fresh (t1 t2 : Q) (model text : str) (v : cache_value)
  (CACHE : cache) :
  (t2 - t1 <= CACHE_TTL)%Q ->
  let CACHE1 := _cache_set sha256_hex t1 model text v CACHE in
  _cache_get sha256_hex t2 model text CACHE1 = (Some v, CACHE1).
Proof.
  intros F. cbn zeta. unfold _cache_get, _cache_set.
  rewrite dict_get_set. apply Qle_bool_iff in F. now rewrite F.
Qed.

End Cache.

(** C10: [correct] on a text [t] and [spellcheck] on the text [AUTO|t] read
    and write the cache under the same key, the hash of the model, [||],
    [AUTO|] and [t].  So what [correct] stored for [t] is what [spellcheck]
    answers for [AUTO|t] while the entry is fresh, without asking the model,
    and what [spellcheck] stored for [AUTO|t] is what [correct] answers for
    [t]. *)
Theorem cache_namespaces_overlap
  (sha256_hex : str -> str) (m : option str) (t : str) :
  let model := model_or_default m in
  _hash_key sha256_hex model (s2l "AUTO|" ++ t) =
    sha256_hex (model ++ s2l "||" ++ s2l "AUTO|" ++ t) /\
  (forall (stream stream' : str -> str -> res (list str)) (CACHE : cache)
          (t0 t1 t2 t3 : Q) (max_chars : Z) (reply : str),
     fst (_cache_get sha256_hex t0 model (s2l "AUTO|" ++ t) CACHE) = None ->
     _ollama_generate stream model (correct_prompt t) = Ok reply ->
     (t2 - t1 <= CACHE_TTL)%Q ->
     exists CACHE1,
       correct sha256_hex stream t0 t1 (mkCorrectRequest t m) CACHE =
         (Ok (RText (VText (strip reply))), CACHE1) /\
       spellcheck sha256_hex stream' t2 t3
         (mkSpellcheckRequest (s2l "AUTO|" ++ t) m max_chars) CACHE1 =
         (Ok (RCorrections (VText (strip reply))), CACHE1)) /\
  (forall (stream stream' : str -> str -> res (list str)) (CACHE : cache)
          (t0 t1 t2 t3 : Q) (max_chars : Z) (g : dict correction) (offset : Z),
     fst (_cache_get sha256_hex t0 model (s2l "AUTO|" ++ t) CACHE) = None ->
     for_each (chunk_body stream model)
       (chunk_text (s2l "AUTO|" ++ t) max_chars) ([], 0) = Ok (g, offset) ->
     (t2 - t1 <= CACHE_TTL)%Q ->
     exists CACHE1,
       spellcheck sha256_hex stream t0 t1
         (mkSpellcheckRequest (s2l "AUTO|" ++ t) m max_chars) CACHE =
         (Ok (RCorrections (VCorrections (values g))), CACHE1) /\
       correct sha256_hex stream' t2 t3 (mkCorrectRequest t m) CACHE1 =
         (Ok (RText (VCorrections (values g))), CACHE1)).
Proof.
  intros model. split; [reflexivity|]. split.
  - intros stream stream' CACHE t0 t1 t2 t3 max_chars reply Miss Gen Fresh.
    unfold correct, spellcheck. cbn [co_model co_text sc_model sc_text].
    fold model.
    destruct (_cache_get sha256_hex t0 model (s2l "AUTO|" ++ t) CACHE)
      as [o CACHE0]. cbn [fst] in Miss. subst o. rewrite Gen.
    eexists. split; [reflexivity|].
    now rewrite (cache_get_fresh sha256_hex t1 t2 model _ _ CACHE0 Fresh).
  - intros stream stream' CACHE t0 t1 t2 t3 max_chars g offset Miss Run Fresh.
    unfold correct, spellcheck.
    cbn [co_model co_text sc_model sc_text max_chunk_chars]. fold model.
    destruct (_cache_get sha256_hex t0 model (s2l "AUTO|" ++ t) CACHE)
      as [o CACHE0]. cbn [fst] in Miss. subst o. rewrite Run.
    eexists. split; [reflexivity|].
    now rewrite (cache_get_fresh sha256_hex t1 t2 model _ _ CACHE0 Fresh).
Qed.

Lemma cache_namespaces_overlap_witness :
  (exists CACHE1,
     correct stub_hash (stub_const (s2l " I have an apple ")) 0 1
       (mkCorrectRequest (s2l "I has a apple") (Some (s2l "m"))) [] =
       (Ok (RText (VText (s2l "I have an apple"))), CACHE1) /\
     spellcheck stub_hash (stub_const (s2l "[]")) 30 31
       (mkSpellcheckRequest (s2l "AUTO|I has a apple") (Some (s2l "m")) 1600)
       CACHE1 =
       (Ok (RCorrections (VText (s2l "I have an apple"))), CACHE1)) /\
  (exists CACHE1,
     spellcheck stub_hash (stub_const (s2l "[]")) 0 1
       (mkSpellcheckRequest (s2l "AUTO|I has a apple") (Some (s2l "m")) 1600)
       [] =
       (Ok (RCorrections (VCorrections [])), CACHE1) /\
     correct stub_hash (stub_const (s2l " I have an apple ")) 60 61
       (mkCorrectRequest (s2l "I has a apple") (Some (s2l "m"))) CACHE1 =
       (Ok (RText (VCorrections [])), CACHE1)).
Proof.
  split.
  - apply (proj1 (proj2 (cache_namespaces_overlap stub_hash (Some (s2l "m"))
                           (s2l "I has a apple")))
             (stub_const (s2l " I have an apple ")) (stub_const (s2l "[]"))
             [] 0%Q 1%Q 30%Q 31%Q 1600 (s2l " I have an apple ")).
    + reflexivity.
    + reflexivity.
    + vm_compute. discriminate.
  - apply (proj2 (proj2 (cache_namespaces_overlap stub_hash (Some (s2l "m"))
                           (s2l "I has a apple")))
             (stub_const (s2l "[]")) (stub_const (s2l " I have an apple "))
             [] 0%Q 1%Q 60%Q 61%Q 1600 [] 18).
    + reflexivity.
    + vm_compute. reflexivity.
    + vm_compute. discriminate.
Defined.

(** * Further properties of the code *)

(** ** Chunker *)

Lemma render_first_app (a b : list str) :
  render_first (a ++ b) = render_first a ++ render_first b.
Proof. unfold render_first. now rewrite map_app, concat_app. Qed.

Lemma render_first_groups (gs : list (list str)) :
  concat (map render_first gs) = render_first (concat gs).
Proof.
  induction gs as [|g gs IH]; [reflexivity|].
  cbn [map concat]. now rewrite render_first_app, IH.
Qed.

(** Writing a space behind every piece of [s.split(" ")] gives back [s]
    and one space. *)
Lemma render_first_split (s : str) :
  render_first (split space s) = s ++ [space].
Proof.
  induction s as [|c r IH]; [reflexivity|]. cbn [split].
  destruct (Ascii.eqb_spec c space) as [->|N].
  - unfold render_first in *. cbn [map concat app]. now rewrite IH.
  - destruct (split space r) as [|w ws] eqn:E;
      [now apply split_nonempty in E|].
    unfold render_first in *. cbn [map concat app] in *. now rewrite IH.
Qed.

Lemma chunk_text_long_groups (s : str) (max_chars : Z) :
  max_chars < len s ->
  exists g0 gs,
    g0 ++ concat gs = split space s /\
    chunk_text s max_chars = chunks_of_groups g0 gs.
Proof.
  intros H. unfold chunk_text. apply Z.leb_gt in H. rewrite H.
  match goal with
  | |- context [fold_left ?f ?l ?a] => set (X := fold_left f l a)
  end.
  assert (T : truthy (snd X) = true).
  { apply fold_chunk_step_truthy. left. apply split_nonempty. }
  assert (G : exists g0 gs,
             grouped g0 gs X /\ g0 ++ concat gs = split space s).
  { apply (fold_chunk_step_grouped max_chars (split space s) [] []).
    apply (grouped_first []). }
  clearbody X. destruct X as [parts cur]. cbn [snd] in T. rewrite T.
  destruct G as (g0 & gs & G & EQ). exists g0, gs.
  split; [exact EQ|]. now apply grouped_finish.
Qed.

Lemma chunk_text_later_chunks (s : str) (max_chars : Z) :
  max_chars < len s ->
  exists first rest,
    chunk_text s max_chars = first :: rest /\
    Forall (fun c => exists t, c = space :: t) rest /\
    first ++ concat (map (@tl ascii) rest) = s ++ [space].
Proof.
  intros H. destruct (chunk_text_long_groups s max_chars H)
    as (g0 & gs & EQ & ->).
  exists (render_first g0), (map render_next gs). split; [reflexivity|]. split.
  - apply Forall_forall. intros c I. apply in_map_iff in I.
    destruct I as (g & <- & _). now exists (render_first g).
  - rewrite map_map. cbn [render_next tl].
    now rewrite render_first_groups, <- render_first_app, EQ,
      render_first_split.
Qed.

(** X1: a text longer than the budget is cut so that every chunk behind
    the first begins with a space the text does not have, and the text is
    got back, with one space behind it, by dropping that first character
    of every later chunk and joining the chunks. *)
Theorem chunk_text_rejoin (s : str) (max_chars : Z) :
  max_chars < len s ->
  exists first rest,
    chunk_text s max_chars = first :: rest /\
    Forall (fun c => exists t, c = space :: t) rest /\
    first ++ concat (map (@tl ascii) rest) = s ++ [space].
Proof. exact (chunk_text_later_chunks s max_chars). Qed.

Lemma chunk_text_rejoin_witness :
  exists first rest,
    chunk_text (s2l "Teh cat sat teh") 8 = first :: rest /\
    Forall (fun c => exists t, c = space :: t) rest /\
    first ++ concat (map (@tl ascii) rest) = s2l "Teh cat sat teh" ++ [space].
Proof. apply chunk_text_rejoin. reflexivity. Defined.

Lemma chunk_step_parts_grow (max_chars : Z) (st : list str * str) (w : str) :
  fst st <> [] -> fst (chunk_step max_chars st w) <> [].
Proof.
  destruct st as [parts cur]. unfold chunk_step.
  destruct (_ >? max_chars); cbn [fst]; [|tauto].
  intros _ E. now apply app_eq_nil in E as [_ E].
Qed.

Lemma fold_parts_grow (max_chars : Z) (ws : list str) : forall st,
  fst st <> [] -> fst (fold_left (chunk_step max_chars) ws st) <> [].
Proof.
  induction ws as [|w ws IH]; intros st H; cbn [fold_left]; [exact H|].
  apply IH. now apply chunk_step_parts_grow.
Qed.

(** While nothing has been appended to [parts], [current_text] is empty or
    within the budget. *)
Lemma fold_first_mode (max_chars : Z) (ws : list str) : forall cur,
  len cur <= max_chars \/ cur = [] ->
  fst (fold_left (chunk_step max_chars) ws ([], cur)) = [] ->
  len (snd (fold_left (chunk_step max_chars) ws ([], cur))) <= max_chars \/
  snd (fold_left (chunk_step max_chars) ws ([], cur)) = [].
Proof.
  induction ws as [|w ws IH]; intros cur B; cbn [fold_left]; [tauto|].
  unfold chunk_step at 2 4 6.
  destruct (len cur + len w + 1 >? max_chars) eqn:C.
  - intros E. exfalso. revert E. apply fold_parts_grow. discriminate.
  - apply IH. left. rewrite !len_app. change (len [space]) with 1.
    rewrite Z.gtb_ltb in C. apply Z.ltb_ge in C. lia.
Qed.

Lemma chunk_text_long_parts (s : str) (max_chars : Z) :
  max_chars < len s ->
  exists parts cur,
    fold_left (chunk_step max_chars) (split space s) ([], []) = (parts, cur) /\
    chunk_text s max_chars = parts ++ [cur].
Proof.
  intros H. unfold chunk_text. apply Z.leb_gt in H. rewrite H.
  match goal with
  | |- context [fold_left ?f ?l ?a] => set (X := fold_left f l a)
  end.
  assert (T : truthy (snd X) = true).
  { apply fold_chunk_step_truthy. left. apply split_nonempty. }
  assert (E : fold_left (chunk_step max_chars) (split space s) ([], []) = X)
    by reflexivity.
  clearbody X. destruct X as [parts cur]. cbn [snd] in T. rewrite T.
  now exists parts, cur.
Qed.

Lemma total_len_app (a b : list str) :
  total_len (a ++ b) = total_len a + total_len b.
Proof.
  unfold total_len.
  induction a as [|c a IH]; cbn [app fold_right]; [reflexivity|].
  rewrite IH. lia.
Qed.

Lemma total_len_next (gs : list (list str)) :
  total_len (map render_next gs) =
  len (render_first (concat gs)) + Z.of_nat (length gs).
Proof.
  unfold total_len.
  induction gs as [|g gs IH]; [reflexivity|].
  cbn [map fold_right concat length].
  rewrite IH, render_first_app, len_app. unfold render_next.
  rewrite len_cons. lia.
Qed.

(** X2: a text longer than the budget is cut into at least two chunks, and
    the lengths of the chunks add up to the length of the text plus the
    number of chunks: that sum is where the running offset of [spellcheck]
    stands after the last chunk. *)
Theorem chunk_text_total_length (s : str) (max_chars : Z) :
  max_chars < len s ->
  (2 <= length (chunk_text s max_chars))%nat /\
  total_len (chunk_text s max_chars) =
    len s + Z.of_nat (length (chunk_text s max_chars)).
Proof.
  intros H.
  destruct (chunk_text_long_groups s max_chars H) as (g0 & gs & EQ & G).
  split.
  - destruct (chunk_text_long_parts s max_chars H) as (parts & cur & F & P).
    rewrite P, length_app. cbn [length].
    destruct parts as [|p parts]; [exfalso|cbn [length]; lia].
    assert (B : len cur <= max_chars \/ cur = []).
    { change cur with (snd (@nil str, cur)). rewrite <- F.
      apply (fold_first_mode max_chars (split space s) []);
        [now right|]. exact (f_equal fst F). }
    rewrite G in P. unfold chunks_of_groups in P. cbn [app] in P.
    injection P as P1 P2. destruct gs; [|discriminate].
    cbn [concat] in EQ. rewrite app_nil_r in EQ. subst g0.
    rewrite render_first_split in P1. subst cur.
    rewrite len_app in B. change (len [space]) with 1 in B.
    destruct B as [B|B]; [lia|]. now apply app_eq_nil in B as [_ B].
  - rewrite G. unfold chunks_of_groups.
    change (total_len (render_first g0 :: map render_next gs))
      with (len (render_first g0) + total_len (map render_next gs)).
    cbn [length]. rewrite total_len_next, length_map.
    assert (L : len (render_first g0) + len (render_first (concat gs)) = len s + 1).
    { rewrite <- len_app, <- render_first_app, EQ, render_first_split, len_app.
      reflexivity. }
    lia.
Qed.

Lemma chunk_text_total_length_witness :
  (2 <= length (chunk_text (s2l "ab cd") 3))%nat /\
  total_len (chunk_text (s2l "ab cd") 3) =
    len (s2l "ab cd") + Z.of_nat (length (chunk_text (s2l "ab cd") 3)).
Proof. apply chunk_text_total_length. reflexivity. Defined.

Lemma chunk_step_nonempty (max_chars : Z) (p : list str) (c w : str) :
  c <> [] ->
  exists q c',
    chunk_step max_chars (p, c) w = (p ++ q, c') /\
    Forall nonempty q /\ c' <> [].
Proof.
  intros N. unfold chunk_step. destruct (_ >? max_chars).
  - exists [c], ([space] ++ w ++ [space]). repeat split.
    + constructor; [exact N|constructor].
    + discriminate.
  - exists [], (c ++ w ++ [space]). rewrite app_nil_r. repeat split.
    + constructor.
    + destruct c; [congruence|discriminate].
Qed.

Lemma fold_chunk_step_nonempty (max_chars : Z) (ws : list str) : forall p c,
  c <> [] ->
  exists q c',
    fold_left (chunk_step max_chars) ws (p, c) = (p ++ q, c') /\
    Forall nonempty q /\ c' <> [].
Proof.
  induction ws as [|w ws IH]; intros p c N; cbn [fold_left].
  - exists [], c. rewrite app_nil_r. repeat split; [constructor|exact N].
  - destruct (chunk_step_nonempty max_chars p c w N) as (q1 & c1 & E1 & Q1 & N1).
    destruct (IH (p ++ q1) c1 N1) as (q2 & c2 & E2 & Q2 & N2).
    exists (q1 ++ q2), c2. split; [|split; [|exact N2]].
    + etransitivity;
        [exact (f_equal (fold_left (chunk_step max_chars) ws) E1)|].
      rewrite app_assoc. exact E2.
    + apply Forall_app. now split.
Qed.

(** X3: [chunk_text] never returns the empty list, and only its first chunk
    can be empty: it is, exactly when the text is empty and within the
    budget, or the text is longer than the budget and its first word with
    the space behind it is longer than the budget too. *)
Theorem chunk_text_empty_only_first (s : str) (max_chars : Z) :
  exists first rest,
    chunk_text s max_chars = first :: rest /\
    Forall nonempty rest /\
    (first = [] <->
     (s = [] /\ 0 <= max_chars) \/
     (max_chars < len s /\ max_chars < len (hd [] (split space s)) + 1)).
Proof.
  destruct (Z_le_gt_dec (len s) max_chars) as [S|L].
  - exists s, []. unfold chunk_text. apply Z.leb_le in S as S'. rewrite S'.
    split; [reflexivity|]. split; [constructor|]. split.
    + intros ->. left. split; [reflexivity|exact S].
    + intros [[E _]|[K _]]; [exact E|lia].
  - assert (L' : max_chars < len s) by lia.
    destruct (chunk_text_long_parts s max_chars L') as (parts & cur & F & ->).
    destruct (split space s) as [|w0 ws] eqn:E;
      [now apply split_nonempty in E|].
    cbn [fold_left hd] in F |- *. unfold chunk_step at 2 in F.
    change (len []) with 0 in F. rewrite Z.add_0_l in F.
    destruct (len w0 + 1 >? max_chars) eqn:C.
    + destruct (fold_chunk_step_nonempty max_chars ws ([] ++ [[]])
                  ([space] ++ w0 ++ [space]) ltac:(discriminate))
        as (q & c' & F' & Q & N).
      pose proof (eq_trans (eq_sym F) F') as K. injection K as -> ->.
      exists [], (q ++ [c']). split; [reflexivity|]. split.
      * apply Forall_app. split; [exact Q|]. constructor; [exact N|constructor].
      * split; [|reflexivity]. intros _. right.
        rewrite Z.gtb_ltb in C. apply Z.ltb_lt in C. lia.
    + destruct (fold_chunk_step_nonempty max_chars ws []
                  ([] ++ w0 ++ [space])
                  ltac:(destruct w0; discriminate))
        as (q & c' & F' & Q & N).
      pose proof (eq_trans (eq_sym F) F') as K. injection K as -> ->.
      cbn [app].
      rewrite Z.gtb_ltb in C. apply Z.ltb_ge in C.
      destruct q as [|q0 q].
      * exists c', []. split; [reflexivity|]. split; [constructor|].
        split; [intros K; now destruct (N K)|].
        intros [[K K0]|[_ K]]; [subst s; change (len []) with 0 in L; lia|lia].
      * inversion Q as [|? ? Q0 Q']; subst.
        exists q0, (q ++ [c']). split; [reflexivity|]. split.
        -- apply Forall_app. split; [exact Q'|].
           constructor; [exact N|constructor].
        -- split; [intros K; now destruct (Q0 K)|].
           intros [[K K0]|[_ K]]; [subst s; change (len []) with 0 in L; lia|lia].
Qed.

(** ** Occurrence scan *)

Module ScanFacts.
Import Re.

Lemma scan_lower atoms ic : forall s prev pos skip a b,
  In (a, b) (scan atoms ic prev s pos skip) -> pos + Z.of_nat skip <= a.
Proof.
  induction s as [|c r IH]; intros prev pos skip a b;
    rewrite ReFacts.scan_unfold; intros H; apply in_app_or in H;
    destruct H as [H|H]; try (now destruct H).
  - destruct skip; [|destruct H].
    destruct (match_here atoms ic prev []); [|destruct H].
    destruct H as [[= <- <-]|[]]. lia.
  - destruct skip; [|destruct H].
    destruct (match_here atoms ic prev (c :: r)); [|destruct H].
    destruct H as [[= <- <-]|[]]. lia.
  - apply IH in H. destruct skip; lia.
Qed.

Lemma scan_sorted atoms ic : forall s prev pos skip,
  StronglySorted range_before (scan atoms ic prev s pos skip).
Proof.
  induction s as [|c r IH]; intros prev pos skip; rewrite ReFacts.scan_unfold.
  - rewrite app_nil_r. destruct skip; [|constructor].
    destruct (match_here atoms ic prev []); repeat constructor.
  - destruct skip as [|k]; [|apply IH].
    destruct (match_here atoms ic prev (c :: r)) as [n|] eqn:M; [|apply IH].
    cbn [app]. constructor; [apply IH|].
    apply Forall_forall. intros [a b] I. apply scan_lower in I.
    apply ReFacts.match_here_nonneg in M.
    unfold range_before. cbn [fst snd]. lia.
Qed.

End ScanFacts.

Lemma StronglySorted_shift (offset : Z) (ms : list (Z * Z)) :
  StronglySorted range_before ms ->
  StronglySorted range_before
    (map (fun m => (offset + fst m, offset + snd m)) ms).
Proof.
  induction 1 as [|m ms S IH F]; cbn [map]; constructor; [exact IH|].
  apply Forall_forall. intros y I. apply in_map_iff in I.
  destruct I as (x & <- & I). rewrite Forall_forall in F.
  specialize (F x I). unfold range_before in *. cbn [fst snd]. lia.
Qed.

(** X4: the ranges reported for one word in one chunk all have the length
    of the word and lie between the offset and the offset plus the length
    of the chunk; they come in increasing order and none overlaps
    another. *)
Theorem locate_ranges_ordered (ch w : str) (offset : Z) (ms : list (Z * Z)) :
  locate ch (JStr w) offset = Ok ms ->
  Forall (fun m => offset <= fst m /\ snd m = fst m + len w /\
                   snd m <= offset + len ch) ms /\
  StronglySorted range_before ms.
Proof.
  intros L. split.
  - apply Forall_forall. intros [a b] I.
    destruct (locate_sound ch w offset ms a b L I)
      as (pre & m & rest & (-> & E & _) & -> & ->).
    cbn [fst snd]. rewrite !len_app, (lower_len m w E).
    pose proof (len_nonneg pre). pose proof (len_nonneg rest). lia.
  - rewrite locate_scan in L. injection L as <-.
    apply StronglySorted_shift, ScanFacts.scan_sorted.
Qed.

Lemma locate_ranges_ordered_witness :
  Forall (fun m => 10 <= fst m /\ snd m = fst m + len (s2l "a") /\
                   snd m <= 10 + len (s2l "a A-a")) [(10, 11); (12, 13); (14, 15)] /\
  StronglySorted range_before [(10, 11); (12, 13); (14, 15)].
Proof.
  apply (locate_ranges_ordered (s2l "a A-a") (s2l "a") 10). reflexivity.
Defined.




(** ** Correction aggregator and the loop over the chunks *)

Lemma slice_middle (pre m rest : str) :
  slice (pre ++ m ++ rest) (len pre) (len pre + len m) = m.
Proof.
  unfold slice, len.
  replace (Z.to_nat (Z.of_nat (length pre) + Z.of_nat (length m)
                     - Z.of_nat (length pre))) with (length m) by lia.
  rewrite Nat2Z.id.
  replace (skipn (length pre) (pre ++ m ++ rest)) with (m ++ rest).
  - induction m as [|c m IH]; [reflexivity|]. cbn. now rewrite IH.
  - induction pre as [|c pre IH]; [reflexivity|exact IH].
Qed.





(** What a request that misses the cache and succeeds has computed. *)
Lemma spellcheck_miss (sha256_hex : str -> str)
  (ollama_stream : str -> str -> res (list str)) (t_get t_set : Q)
  (req : SpellcheckRequest) (CACHE CACHE' : cache) (r : response) :
  fst (_cache_get sha256_hex t_get (model_or_default (sc_model req))
         (sc_text req) CACHE) = None ->
  spellcheck sha256_hex ollama_stream t_get t_set req CACHE = (Ok r, CACHE') ->
  exists g offset,
    for_each (chunk_body ollama_stream (model_or_default (sc_model req)))
      (chunk_text (sc_text req) (max_chunk_chars req)) ([], 0) = Ok (g, offset) /\
    r = RCorrections (VCorrections (values g)).
Proof.
  unfold spellcheck. intros Miss.
  destruct (_cache_get sha256_hex t_get _ _ CACHE) as [o C0].
  cbn [fst] in Miss. subst o.
  destruct (for_each _ _ _) as [[g offset]|e]; [|discriminate].
  intros [= <- _]. now exists g, offset.
Qed.

Lemma keyed_words (g : dict correction) :
  keyed g ->
  exists ws, map word (values g) = map JStr ws /\ map lower ws = keys g.
Proof.
  induction 1 as [|[k c] g H _ (ws & W & K)]; [now exists []|].
  cbn [fst snd] in H. destruct (word c) as [| | | |w| |] eqn:E; try discriminate.
  cbn [py_lower] in H. injection H as <-.
  exists (w :: ws). unfold values, keys in *. cbn [map fst snd].
  now rewrite E, W, K.
Qed.



(** X7: the corrections of a computed answer are one per word when case is
    ignored: every entry holds a string as its word, and no two of these
    words have the same lower-case form. *)
Theorem spellcheck_one_entry_per_word (sha256_hex : str -> str)
  (ollama_stream : str -> str -> res (list str)) (t_get t_set : Q)
  (req : SpellcheckRequest) (CACHE CACHE' : cache) (result : list correction) :
  fst (_cache_get sha256_hex t_get (model_or_default (sc_model req))
         (sc_text req) CACHE) = None ->
  spellcheck sha256_hex ollama_stream t_get t_set req CACHE =
    (Ok (RCorrections (VCorrections result)), CACHE') ->
  exists ws, map word result = map JStr ws /\ NoDup (map lower ws).
Proof.
  intros Miss Run.
  destruct (spellcheck_miss _ _ _ _ _ _ _ _ Miss Run) as (g & offset & F & E).
  injection E as ->. apply chunk_loop_keys in F. destruct F as [K P].
  destruct (keyed_words g (P (Forall_nil _))) as (ws & W & L).
  exists ws. split; [exact W|].
  rewrite L, K, union_loop_spec, union_first_seen_nil.
  apply NoDup_dedup_first.
Qed.

Lemma spellcheck_one_entry_per_word_witness :
  exists ws,
    map word [entry_Teh [(0, 3); (14, 17)] [s2l "The"; s2l "the"]] =
      map JStr ws /\
    NoDup (map lower ws).
Proof.
  apply (spellcheck_one_entry_per_word stub_hash stub_Teh 0 0
           (mkSpellcheckRequest (s2l "Teh cat sat teh") (Some (s2l "m")) 8) []
           (snd (spellcheck stub_hash stub_Teh 0 0
                   (mkSpellcheckRequest (s2l "Teh cat sat teh") (Some (s2l "m")) 8)
                   []))).
  - reflexivity.
  - vm_compute. reflexivity.
Defined.

Lemma dict_get_set_other {V} (k k' : str) (v : V) (d : dict V) :
  k <> k' -> dict_get k (dict_set k' v d) = dict_get k d.
Proof.
  intros N. induction d as [|[k0 v0] d IH]; cbn [dict_set dict_get].
  - destruct (str_eqb k' k) eqn:E; [|reflexivity].
    apply str_eqb_eq in E. congruence.
  - destruct (str_eqb k0 k') eqn:E; cbn [dict_get].
    + apply str_eqb_eq in E. subst k0.
      destruct (str_eqb k' k) eqn:E'; [|reflexivity].
      apply str_eqb_eq in E'. congruence.
    + now rewrite IH.
Qed.

Lemma extends_refl (e : correction) : extends e e.
Proof.
  split; [reflexivity|]. split; [exists []; now rewrite app_nil_r|].
  intros l ->. exists []. now rewrite app_nil_r.
Qed.

Lemma extends_trans (a b c : correction) :
  extends a b -> extends b c -> extends a c.
Proof.
  intros (W1 & (x1 & P1) & S1) (W2 & (x2 & P2) & S2). split; [congruence|].
  split.
  - exists (x1 ++ x2). now rewrite P2, P1, app_assoc.
  - intros l E. destruct (S1 l E) as (y1 & E1).
    destruct (S2 _ E1) as (y2 & E2). exists (y1 ++ y2).
    now rewrite E2, app_assoc.
Qed.

Lemma unify_extends (new : list json) : forall stored seen st,
  for_each unify_step new (stored, seen) = Ok st ->
  forall l, stored = JArr l -> exists extra, fst st = JArr (l ++ extra).
Proof.
  induction new as [|s new IH]; intros stored seen st; cbn [for_each].
  - intros [= <-] l ->. exists []. now rewrite app_nil_r.
  - unfold unify_step at 1. destruct (negb (hashable s)); [discriminate|].
    destruct (negb (py_in s seen)).
    + destruct (py_append stored s) as [stored'|] eqn:A; [|discriminate].
      cbn [bind]. intros F l ->. cbn [py_append] in A. injection A as <-.
      destruct (IH _ _ _ F (l ++ [s]) eq_refl) as (extra & E).
      exists (s :: extra). now rewrite E, <- app_assoc.
    + cbn [bind]. apply IH.
Qed.

Lemma merge_item_extends (ch : str) (offset : Z) (g g' : dict correction)
  (item : json) (k : str) (e : correction) :
  merge_item ch offset g item = Ok g' ->
  dict_get k g = Some e ->
  exists e', dict_get k g' = Some e' /\ extends e e'.
Proof.
  unfold merge_item.
  destruct (py_get item (s2l "misspelled_word")) as [w|]; [|discriminate].
  cbn [bind]. destruct (py_get item (s2l "suggestion")) as [sugg|]; [|discriminate].
  cbn [bind]. destruct (locate ch w offset) as [found|]; [|discriminate].
  cbn [bind]. destruct (py_lower w) as [key|]; [|discriminate].
  cbn [bind]. intros M G.
  destruct (list_eq_dec ascii_dec k key) as [->|N].
  - rewrite G in M. destruct e as [w0 s0 p0].
    destruct (py_set s0) as [seen|]; [|discriminate]. cbn [bind] in M.
    destruct (py_iter sugg) as [new|]; [|discriminate]. cbn [bind] in M.
    destruct (for_each unify_step new (s0, seen)) as [st|] eqn:U; [|discriminate].
    cbn [bind] in M. injection M as <-. rewrite dict_get_set.
    eexists. split; [reflexivity|]. split; [reflexivity|]. split.
    + now exists found.
    + cbn [suggestions]. exact (unify_extends _ _ _ _ U).
  - exists e. split; [|apply extends_refl].
    destruct (dict_get key g) as [[w0 s0 p0]|].
    + destruct (py_set s0) as [seen|]; [|discriminate]. cbn [bind] in M.
      destruct (py_iter sugg) as [new|]; [|discriminate]. cbn [bind] in M.
      destruct (for_each unify_step new (s0, seen)) as [st|]; [|discriminate].
      cbn [bind] in M. injection M as <-. now rewrite dict_get_set_other.
    + injection M as <-. now rewrite dict_get_set_other.
Qed.

Lemma merge_items_extends (ch : str) (offset : Z) (items : list json) :
  forall g g' k e,
  for_each (merge_item ch offset) items g = Ok g' ->
  dict_get k g = Some e ->
  exists e', dict_get k g' = Some e' /\ extends e e'.
Proof.
  induction items as [|item items IH]; intros g g' k e; cbn [for_each].
  - intros [= <-] G. exists e. split; [exact G|apply extends_refl].
  - destruct (merge_item ch offset g item) as [g1|] eqn:M; [|discriminate].
    cbn [bind]. intros F G.
    destruct (merge_item_extends _ _ _ _ _ _ _ M G) as (e1 & G1 & X1).
    destruct (IH _ _ _ _ F G1) as (e2 & G2 & X2).
    exists e2. split; [exact G2|]. exact (extends_trans _ _ _ X1 X2).
Qed.

(** X8: no later report and no later chunk drops or renames a correction
    once made: after the loop the key still has an entry, with the same
    word, with the ranges it had and possibly more behind them, and, where
    its suggestions were a list, with that list and possibly more behind
    it. *)
Theorem chunk_loop_extends (ollama_stream : str -> str -> res (list str))
  (model : str) (chunks : list str) :
  forall (g : dict correction) (offset : Z) (g' : dict correction)
         (offset' : Z) (k : str) (e : correction),
  for_each (chunk_body ollama_stream model) chunks (g, offset) = Ok (g', offset') ->
  dict_get k g = Some e ->
  exists e', dict_get k g' = Some e' /\ extends e e'.
Proof.
  induction chunks as [|ch chunks IH]; intros g offset g' offset' k e;
    cbn [for_each].
  - intros [= <- <-] G. exists e. split; [exact G|apply extends_refl].
  - unfold chunk_body at 1.
    destruct (_ollama_generate ollama_stream model (spellcheck_prompt ch))
      as [raw|]; [|discriminate].
    cbn [bind]. destruct (py_iter (_extract_json_list raw)) as [items|];
      [|discriminate].
    cbn [bind].
    destruct (for_each (merge_item ch offset) items g) as [g1|] eqn:M;
      [|discriminate].
    cbn [bind]. intros F G.
    destruct (merge_items_extends _ _ _ _ _ _ _ M G) as (e1 & G1 & X1).
    destruct (IH _ _ _ _ _ _ F G1) as (e2 & G2 & X2).
    exists e2. split; [exact G2|]. exact (extends_trans _ _ _ X1 X2).
Qed.

Lemma chunk_loop_extends_witness :
  exists e',
    dict_get (s2l "teh")
      [(s2l "teh", entry_Teh [(0, 3); (14, 17)] [s2l "The"; s2l "the"])] =
      Some e' /\
    extends (entry_Teh [(0, 3)] [s2l "The"]) e'.
Proof.
  apply (chunk_loop_extends stub_Teh (s2l "m") [s2l " sat "; s2l " teh "]
           [(s2l "teh", entry_Teh [(0, 3)] [s2l "The"])] 8
           [(s2l "teh", entry_Teh [(0, 3); (14, 17)] [s2l "The"; s2l "the"])]
           18 (s2l "teh")).
  - vm_compute. reflexivity.
  - reflexivity.
Defined.

Lemma for_each_app {A S : Type} (body : S -> A -> res S) (a b : list A) :
  forall st,
  for_each body (a ++ b) st = bind (for_each body a st) (for_each body b).
Proof.
  induction a as [|x a IH]; intros st; cbn [app for_each bind]; [reflexivity|].
  destruct (body st x); cbn [bind]; [apply IH|reflexivity].
Qed.

Lemma chunk_loop_offset (ollama_stream : str -> str -> res (list str))
  (model : str) (chunks : list str) :
  forall g offset g' offset',
  for_each (chunk_body ollama_stream model) chunks (g, offset) = Ok (g', offset') ->
  offset' = offset + total_len chunks.
Proof.
  unfold total_len.
  induction chunks as [|ch chunks IH]; intros g offset g' offset';
    cbn [for_each fold_right].
  - intros [= _ <-]. lia.
  - unfold chunk_body at 1.
    destruct (_ollama_generate ollama_stream model (spellcheck_prompt ch))
      as [raw|]; [|discriminate].
    cbn [bind]. destruct (py_iter (_extract_json_list raw)) as [items|];
      [|discriminate].
    cbn [bind].
    destruct (for_each (merge_item ch offset) items g) as [g1|];
      [|discriminate].
    cbn [bind]. intros F. apply IH in F. lia.
Qed.

(** X9: in a loop that succeeds, every chunk is scanned with the sum of
    the lengths of the chunks before it as its offset, whatever the model
    reports: the loop over the chunks in front ends at that offset and the
    loop over the rest goes on from it. *)
Theorem chunk_loop_running_offset
  (ollama_stream : str -> str -> res (list str)) (model : str)
  (before after : list str) (ch : str) (r : dict correction * Z) :
  for_each (chunk_body ollama_stream model) (before ++ ch :: after) ([], 0) = Ok r ->
  exists g1,
    for_each (chunk_body ollama_stream model) before ([], 0) =
      Ok (g1, total_len before) /\
    for_each (chunk_body ollama_stream model) (ch :: after)
      (g1, total_len before) = Ok r /\
    snd r = total_len (before ++ ch :: after).
Proof.
  intros F. pose proof F as F0. rewrite for_each_app in F.
  destruct (for_each (chunk_body ollama_stream model) before ([], 0))
    as [[g1 o1]|] eqn:B; [|discriminate].
  cbn [bind] in F. pose proof (chunk_loop_offset _ _ _ _ _ _ _ B) as O.
  rewrite Z.add_0_l in O. subst o1. exists g1.
  split; [reflexivity|]. split; [exact F|].
  destruct r as [g' o']. apply chunk_loop_offset in F0. cbn [snd]. lia.
Qed.

Lemma chunk_loop_running_offset_witness :
  exists g1,
    for_each (chunk_body stub_Teh (s2l "m")) [s2l "Teh cat "; s2l " sat "]
      ([], 0) = Ok (g1, total_len [s2l "Teh cat "; s2l " sat "]) /\
    for_each (chunk_body stub_Teh (s2l "m")) [s2l " teh "]
      (g1, total_len [s2l "Teh cat "; s2l " sat "]) =
      Ok ([(s2l "teh", entry_Teh [(0, 3); (14, 17)] [s2l "The"; s2l "the"])], 18) /\
    snd ([(s2l "teh", entry_Teh [(0, 3); (14, 17)] [s2l "The"; s2l "the"])], 18) =
      total_len ([s2l "Teh cat "; s2l " sat "] ++ [s2l " teh "]).
Proof.
  apply (chunk_loop_running_offset stub_Teh (s2l "m")
           [s2l "Teh cat "; s2l " sat "] [] (s2l " teh ")).
  vm_compute. reflexivity.
Defined.

Lemma total_len_tails (rest : list str) :
  Forall (fun c => exists t, c = space :: t) rest ->
  len (concat (map (@tl ascii) rest)) = total_len rest - Z.of_nat (length rest).
Proof.
  unfold total_len.
  induction 1 as [|c rest (t & ->) _ IH]; [reflexivity|].
  cbn [map concat tl fold_right length]. rewrite len_app, IH, len_cons. lia.
Qed.

(** X10: in a text longer than the budget, the words of the chunk that
    has [k] chunks before it stand [k] characters further left than the
    chunk places them: its text behind the leading space starts in the
    input at the sum of the lengths of the chunks before it, plus one,
    minus [k]. *)
Theorem chunk_text_drift (s : str) (max_chars : Z) (before after : list str)
  (t : str) :
  max_chars < len s ->
  before <> [] ->
  chunk_text s max_chars = before ++ (space :: t) :: after ->
  exists pre post,
    s ++ [space] = pre ++ t ++ post /\
    len pre = total_len before + 1 - Z.of_nat (length before).
Proof.
  intros L N E.
  destruct (chunk_text_later_chunks s max_chars L) as (first & rest & C & S & J).
  rewrite C in E. destruct before as [|b before]; [congruence|].
  cbn [app] in E. injection E as -> ->.
  rewrite map_app, concat_app in J. cbn [map concat tl] in J.
  exists (b ++ concat (map (@tl ascii) before)), (concat (map (@tl ascii) after)).
  split.
  - rewrite <- J. now rewrite <- !app_assoc.
  - apply Forall_app in S. destruct S as [S _].
    rewrite len_app, (total_len_tails before S).
    change (total_len (b :: before)) with (len b + total_len before).
    cbn [length]. lia.
Qed.

Lemma chunk_text_drift_witness :
  exists pre post,
    s2l "Teh cat sat teh" ++ [space] = pre ++ s2l "teh " ++ post /\
    len pre =
      total_len [s2l "Teh cat "; s2l " sat "] + 1
      - Z.of_nat (length [s2l "Teh cat "; s2l " sat "]).
Proof.
  apply (chunk_text_drift (s2l "Teh cat sat teh") 8
           [s2l "Teh cat "; s2l " sat "] [] (s2l "teh ")).
  - reflexivity.
  - discriminate.
  - reflexivity.
Defined.

(** ** Result cache *)

Lemma dict_pop_get_other {V} (k k' : str) (d : dict V) :
  k <> k' -> dict_get k (dict_pop k' d) = dict_get k d.
Proof.
  intros N. induction d as [|[k0 v0] d IH]; [reflexivity|].
  cbn [dict_pop dict_get]. destruct (str_eqb k0 k') eqn:E; cbn [dict_get].
  - apply str_eqb_eq in E. subst k0.
    destruct (str_eqb k' k) eqn:E'; [|reflexivity].
    apply str_eqb_eq in E'. congruence.
  - now rewrite IH.
Qed.

Lemma dict_get_In_keys {V} (k : str) (v : V) (d : dict V) :
  dict_get k d = Some v -> In k (keys d).
Proof.
  intros G. apply mem_In. now rewrite dict_get_mem, G.
Qed.

Lemma dict_pop_keys_incl {V} (k x : str) (d : dict V) :
  In x (keys (dict_pop k d)) -> In x (keys d).
Proof.
  induction d as [|[k0 v0] d IH]; [tauto|]. unfold keys in *.
  cbn [dict_pop map fst]. destruct (str_eqb k0 k); cbn [map fst In]; tauto.
Qed.

Lemma dict_pop_NoDup {V} (k : str) (d : dict V) :
  NoDup (keys d) -> NoDup (keys (dict_pop k d)).
Proof.
  induction d as [|[k0 v0] d IH]; [tauto|]. unfold keys in *.
  cbn [dict_pop map fst]. intros N. inversion N as [|? ? NI N']; subst.
  destruct (str_eqb k0 k); [exact N'|]. cbn [map fst]. constructor; [|auto].
  intros I. apply NI. exact (dict_pop_keys_incl k k0 d I).
Qed.

Lemma dict_pop_get {V} (k : str) (d : dict V) :
  NoDup (keys d) -> dict_get k (dict_pop k d) = None.
Proof.
  induction d as [|[k0 v0] d IH]; [reflexivity|]. unfold keys in *.
  cbn [dict_pop map fst]. intros N. inversion N as [|? ? NI N']; subst.
  destruct (str_eqb k0 k) eqn:E.
  - apply str_eqb_eq in E. subst k0.
    destruct (dict_get k d) eqn:G; [|reflexivity].
    exfalso. apply NI. exact (dict_get_In_keys _ _ _ G).
  - cbn [dict_get]. rewrite E. auto.
Qed.

Lemma dict_pop_length {V} (k : str) (v : V) (d : dict V) :
  dict_get k d = Some v -> S (length (dict_pop k d)) = length d.
Proof.
  induction d as [|[k0 v0] d IH]; [discriminate|].
  cbn [dict_get dict_pop]. destruct (str_eqb k0 k); [reflexivity|].
  intros G. cbn [length]. now rewrite IH.
Qed.

Lemma dict_set_NoDup {V} (k : str) (v : V) (d : dict V) :
  NoDup (keys d) -> NoDup (keys (dict_set k v d)).
Proof.
  intros N. rewrite dict_set_keys. destruct (mem k (keys d)) eqn:M; [exact N|].
  apply NoDup_app; [exact N|repeat constructor; tauto|].
  intros a I [<-|[]]. apply mem_In in I. congruence.
Qed.

Lemma dict_set_length {V} (k : str) (v : V) (d : dict V) :
  length (dict_set k v d) =
  match dict_get k d with
  | Some _ => length d
  | None => S (length d)
  end.
Proof.
  induction d as [|[k0 v0] d IH]; [reflexivity|].
  cbn [dict_set dict_get]. destruct (str_eqb k0 k); [reflexivity|].
  cbn [length]. rewrite IH. now destruct (dict_get k d).
Qed.

(** X11: a read of the cache finds an entry fresh up to and including 60
    seconds of age and leaves the cache as it is; it treats an older entry
    as absent and removes it, so that the key is absent at every later
    read, every other key keeps its entry, and the cache has one entry
    less. *)
Theorem cache_get_contract (sha256_hex : str -> str) (now ts : Q)
  (model text : str) (v : cache_value) (CACHE : cache) :
  NoDup (keys CACHE) ->
  dict_get (_hash_key sha256_hex model text) CACHE = Some (ts, v) ->
  ((now - ts <= CACHE_TTL)%Q ->
   _cache_get sha256_hex now model text CACHE = (Some v, CACHE)) /\
  (~ (now - ts <= CACHE_TTL)%Q ->
   exists CACHE',
     _cache_get sha256_hex now model text CACHE = (None, CACHE') /\
     (forall now', _cache_get sha256_hex now' model text CACHE' = (None, CACHE')) /\
     (forall k, k <> _hash_key sha256_hex model text ->
                dict_get k CACHE' = dict_get k CACHE) /\
     S (length CACHE') = length CACHE /\
     NoDup (keys CACHE')).
Proof.
  intros N G. unfold _cache_get. rewrite G. split.
  - intros F. apply Qle_bool_iff in F. now rewrite F.
  - intros F. destruct (Qle_bool (now - ts) CACHE_TTL) eqn:E;
      [apply Qle_bool_iff in E; tauto|].
    cbn [negb]. eexists. split; [reflexivity|].
    split; [|split; [|split]].
    + intros now'. now rewrite (dict_pop_get _ _ N).
    + intros k K. now apply dict_pop_get_other.
    + exact (dict_pop_length _ _ _ G).
    + now apply dict_pop_NoDup.
Qed.

Lemma cache_get_contract_witness :
  _cache_get stub_hash 60 (s2l "m") (s2l "t")
    [(stub_hash (s2l "m||t"), (0%Q, VText (s2l "x")))] =
    (Some (VText (s2l "x")), [(stub_hash (s2l "m||t"), (0%Q, VText (s2l "x")))]) /\
  exists CACHE',
    _cache_get stub_hash 61 (s2l "m") (s2l "t")
      [(stub_hash (s2l "m||t"), (0%Q, VText (s2l "x")))] = (None, CACHE') /\
    S (length CACHE') = 1%nat.
Proof.
  assert (N : NoDup (keys [(stub_hash (s2l "m||t"), (0%Q, VText (s2l "x")))])).
  { repeat constructor. intros []. }
  split.
  - apply (proj1 (cache_get_contract stub_hash 60 0 (s2l "m") (s2l "t")
                    (VText (s2l "x")) _ N eq_refl)).
    vm_compute. discriminate.
  - destruct (proj2 (cache_get_contract stub_hash 61 0 (s2l "m") (s2l "t")
                       (VText (s2l "x")) _ N eq_refl))
      as (C & G & _ & _ & L & _).
    + vm_compute. intros H. now apply H.
    + exists C. split; [exact G|exact L].
Defined.

(** X12: a write puts the value under the key of the model and the text,
    replacing what was there; it leaves every other key as it is, adds
    one entry when the key is new and none otherwise, keeps the keys
    distinct, and a read of the key within 60 seconds gives the value
    back. *)
Theorem cache_set_contract (sha256_hex : str -> str) (now ts : Q)
  (model text : str) (v : cache_value) (CACHE : cache) :
  NoDup (keys CACHE) ->
  let CACHE1 := _cache_set sha256_hex ts model text v CACHE in
  NoDup (keys CACHE1) /\
  dict_get (_hash_key sha256_hex model text) CACHE1 = Some (ts, v) /\
  (forall k, k <> _hash_key sha256_hex model text ->
             dict_get k CACHE1 = dict_get k CACHE) /\
  length CACHE1 =
    match dict_get (_hash_key sha256_hex model text) CACHE with
    | Some _ => length CACHE
    | None => S (length CACHE)
    end /\
  ((now - ts <= CACHE_TTL)%Q ->
   _cache_get sha256_hex now model text CACHE1 = (Some v, CACHE1)).
Proof.
  intros N CACHE1. subst CACHE1. unfold _cache_set.
  split; [now apply dict_set_NoDup|]. split; [apply dict_get_set|].
  split; [intros k K; now apply dict_get_set_other|].
  split; [apply dict_set_length|].
  intros F. now apply (cache_get_fresh sha256_hex ts now model text v CACHE).
Qed.

Lemma cache_set_contract_witness :
  _cache_get stub_hash 30 (s2l "m") (s2l "t")
    (_cache_set stub_hash 0 (s2l "m") (s2l "t") (VText (s2l "x")) []) =
    (Some (VText (s2l "x")),
     _cache_set stub_hash 0 (s2l "m") (s2l "t") (VText (s2l "x")) []).
Proof.
  apply (cache_set_contract stub_hash 30 0 (s2l "m") (s2l "t")
           (VText (s2l "x")) [] (NoDup_nil _)).
  vm_compute. discriminate.
Defined.

(** ** The endpoints and the cache *)

Lemma truthy_app (a b : str) : truthy a = true -> truthy (a ++ b) = true.
Proof. destruct a; [discriminate|reflexivity]. Qed.

(** X13: the cache key does not keep the model and the text apart when
    one of them holds the separator: the answer computed for model [m] and
    text [x||t] is served, within 60 seconds and without a call to the
    model, to a request for model [m||x] and text [t]. *)
Theorem spellcheck_separator_collision (sha256_hex : str -> str)
  (stream stream' : str -> str -> res (list str)) (m x t : str)
  (CACHE : cache) (t0 t1 t2 t3 : Q) (max_chars max_chars' : Z)
  (g : dict correction) (offset : Z) :
  m <> [] ->
  fst (_cache_get sha256_hex t0 m (x ++ s2l "||" ++ t) CACHE) = None ->
  for_each (chunk_body stream m)
    (chunk_text (x ++ s2l "||" ++ t) max_chars) ([], 0) = Ok (g, offset) ->
  (t2 - t1 <= CACHE_TTL)%Q ->
  _hash_key sha256_hex (m ++ s2l "||" ++ x) t =
    _hash_key sha256_hex m (x ++ s2l "||" ++ t) /\
  exists CACHE1,
    spellcheck sha256_hex stream t0 t1
      (mkSpellcheckRequest (x ++ s2l "||" ++ t) (Some m) max_chars) CACHE =
      (Ok (RCorrections (VCorrections (values g))), CACHE1) /\
    spellcheck sha256_hex stream' t2 t3
      (mkSpellcheckRequest t (Some (m ++ s2l "||" ++ x)) max_chars') CACHE1 =
      (Ok (RCorrections (VCorrections (values g))), CACHE1).
Proof.
  intros M Miss Run Fresh.
  assert (K : _hash_key sha256_hex (m ++ s2l "||" ++ x) t =
              _hash_key sha256_hex m (x ++ s2l "||" ++ t)).
  { unfold _hash_key. now rewrite <- !app_assoc. }
  split; [exact K|].
  assert (T : truthy m = true) by (destruct m; [congruence|reflexivity]).
  unfold spellcheck. cbn [sc_model sc_text max_chunk_chars model_or_default].
  rewrite T, (truthy_app m _ T).
  destruct (_cache_get sha256_hex t0 m (x ++ s2l "||" ++ t) CACHE)
    as [o CACHE0]. cbn [fst] in Miss. subst o. rewrite Run.
  eexists. split; [reflexivity|].
  unfold _cache_get at 1. rewrite K. unfold _cache_set.
  rewrite dict_get_set. apply Qle_bool_iff in Fresh. now rewrite Fresh.
Qed.

Lemma spellcheck_separator_collision_witness :
  exists CACHE1,
    spellcheck stub_hash (stub_const (s2l "[]")) 0 1
      (mkSpellcheckRequest (s2l "b||c") (Some (s2l "a")) 1600) [] =
      (Ok (RCorrections (VCorrections [])), CACHE1) /\
    spellcheck stub_hash (stub_const (s2l "[1]")) 2 3
      (mkSpellcheckRequest (s2l "c") (Some (s2l "a||b")) 7) CACHE1 =
      (Ok (RCorrections (VCorrections [])), CACHE1).
Proof.
  apply (proj2 (spellcheck_separator_collision stub_hash
                  (stub_const (s2l "[]")) (stub_const (s2l "[1]"))
                  (s2l "a") (s2l "b") (s2l "c") [] 0 1 2 3 1600 7 [] 4
                  ltac:(discriminate) eq_refl ltac:(vm_compute; reflexivity)
                  ltac:(vm_compute; discriminate))).
Defined.

(** X14: a computed answer is served again, within 60 seconds, to every
    request with the same text whose model field comes to the same model
    (absent and empty both stand for the default), whatever its
    [max_chunk_chars]: the text is not cut again, the model is not called,
    the cache is left as it is. *)
Theorem spellcheck_served_again (sha256_hex : str -> str)
  (stream stream' : str -> str -> res (list str)) (req req' : SpellcheckRequest)
  (CACHE : cache) (t0 t1 t2 t3 : Q) (g : dict correction) (offset : Z) :
  sc_text req' = sc_text req ->
  model_or_default (sc_model req') = model_or_default (sc_model req) ->
  fst (_cache_get sha256_hex t0 (model_or_default (sc_model req))
         (sc_text req) CACHE) = None ->
  for_each (chunk_body stream (model_or_default (sc_model req)))
    (chunk_text (sc_text req) (max_chunk_chars req)) ([], 0) = Ok (g, offset) ->
  (t2 - t1 <= CACHE_TTL)%Q ->
  exists CACHE1,
    spellcheck sha256_hex stream t0 t1 req CACHE =
      (Ok (RCorrections (VCorrections (values g))), CACHE1) /\
    spellcheck sha256_hex stream' t2 t3 req' CACHE1 =
      (Ok (RCorrections (VCorrections (values g))), CACHE1).
Proof.
  intros ET EM Miss Run Fresh. unfold spellcheck. rewrite ET, EM.
  destruct (_cache_get sha256_hex t0 _ _ CACHE) as [o CACHE0].
  cbn [fst] in Miss. subst o. rewrite Run.
  eexists. split; [reflexivity|].
  now rewrite (cache_get_fresh sha256_hex t1 t2 _ _ _ CACHE0 Fresh).
Qed.

Lemma spellcheck_served_again_witness :
  exists CACHE1,
    spellcheck stub_hash stub_Teh 0 1
      (mkSpellcheckRequest (s2l "Teh cat sat teh") None 8) [] =
      (Ok (RCorrections
             (VCorrections [entry_Teh [(0, 3); (14, 17)] [s2l "The"; s2l "the"]])),
       CACHE1) /\
    spellcheck stub_hash (stub_const (s2l "[1]")) 61 62
      (mkSpellcheckRequest (s2l "Teh cat sat teh") (Some []) 1600) CACHE1 =
      (Ok (RCorrections
             (VCorrections [entry_Teh [(0, 3); (14, 17)] [s2l "The"; s2l "the"]])),
       CACHE1).
Proof.
  apply (spellcheck_served_again stub_hash stub_Teh (stub_const (s2l "[1]"))
           (mkSpellcheckRequest (s2l "Teh cat sat teh") None 8)
           (mkSpellcheckRequest (s2l "Teh cat sat teh") (Some []) 1600)
           [] 0 1 61 62
           [(s2l "teh", entry_Teh [(0, 3); (14, 17)] [s2l "The"; s2l "the"])]
           18 eq_refl eq_refl eq_refl).
  - vm_compute. reflexivity.
  - vm_compute. discriminate.
Defined.

Lemma for_each_raises {A S : Type} (body : S -> A -> res S) (x : A)
  (items : list A) :
  In x items ->
  (forall st, exists e, body st x = Raise e) ->
  forall st, exists e, for_each body items st = Raise e.
Proof.
  intros I R. induction items as [|y items IH]; [destruct I|].
  intros st. cbn [for_each]. destruct I as [->|I].
  - destruct (R st) as [e ->]. now exists e.
  - destruct (body st y) as [st'|e]; cbn [bind]; [now apply IH|now exists e].
Qed.

(** X15: when the call to the model fails for one of the chunks, the
    request fails as a whole: no correction of any chunk is returned, and
    nothing is written to the cache, which is left as the read left it. *)
Theorem spellcheck_upstream_failure (sha256_hex : str -> str)
  (ollama_stream : str -> str -> res (list str)) (t_get t_set : Q)
  (req : SpellcheckRequest) (CACHE : cache) (ch : str) (e : exn) :
  fst (_cache_get sha256_hex t_get (model_or_default (sc_model req))
         (sc_text req) CACHE) = None ->
  In ch (chunk_text (sc_text req) (max_chunk_chars req)) ->
  ollama_stream (model_or_default (sc_model req)) (spellcheck_prompt ch) =
    Raise e ->
  exists e',
    spellcheck sha256_hex ollama_stream t_get t_set req CACHE =
      (Raise e',
       snd (_cache_get sha256_hex t_get (model_or_default (sc_model req))
              (sc_text req) CACHE)).
Proof.
  intros Miss I R. unfold spellcheck.
  destruct (_cache_get sha256_hex t_get _ _ CACHE) as [o CACHE0].
  cbn [fst] in Miss. subst o. cbn [snd].
  destruct (for_each_raises
              (chunk_body ollama_stream (model_or_default (sc_model req)))
              ch _ I) with (st := (@nil (str * correction), 0)) as [e' ->].
  - intros [g offset]. exists e. unfold chunk_body, _ollama_generate.
    now rewrite R.
  - now exists e'.
Qed.

Lemma spellcheck_upstream_failure_witness :
  exists e',
    spellcheck stub_hash (fun _ _ => Raise RequestException) 0 1
      (mkSpellcheckRequest [] None 1600) [] = (Raise e', []).
Proof.
  apply (spellcheck_upstream_failure stub_hash
           (fun _ _ => Raise RequestException) 0 1
           (mkSpellcheckRequest [] None 1600) [] [] RequestException
           eq_refl (or_introl eq_refl) eq_refl).
Defined.

Lemma lstrip_spec (s : str) :
  exists a,
    s = a ++ lstrip s /\
    Forall (fun c => is_space c = true) a /\
    (forall c r, lstrip s = c :: r -> is_space c = false).
Proof.
  induction s as [|d s (a & E & A & H)]; cbn [lstrip].
  - exists []. repeat split; [constructor|discriminate].
  - destruct (is_space d) eqn:D.
    + exists (d :: a). cbn [app]. rewrite <- E. repeat split; [|exact H].
      now constructor.
    + exists []. repeat split; [constructor|]. now intros c r [= <- _].
Qed.

Lemma lstrip_suffix_last (s : str) (c : ascii) (r : str) :
  lstrip s = r ++ [c] -> exists p, s = p ++ [c].
Proof.
  destruct (lstrip_spec s) as (a & E & _). intros L. rewrite L in E.
  exists (a ++ r). now rewrite <- app_assoc.
Qed.

(** What [s.strip()] leaves: [s] without the white space at its two ends. *)
Lemma strip_spec (s : str) :
  exists a b,
    s = a ++ strip s ++ b /\
    Forall (fun c => is_space c = true) a /\
    Forall (fun c => is_space c = true) b /\
    (forall c r, strip s = c :: r -> is_space c = false) /\
    (forall r c, strip s = r ++ [c] -> is_space c = false).
Proof.
  unfold strip.
  destruct (lstrip_spec s) as (a & E1 & A & H1).
  destruct (lstrip_spec (rev (lstrip s))) as (b & E2 & B & H2).
  set (u := lstrip s) in *. set (v := lstrip (rev u)) in *.
  assert (U : u = rev v ++ rev b).
  { rewrite <- (rev_involutive u), E2. apply rev_app_distr. }
  exists a, (rev b). split; [now rewrite <- U|]. split; [exact A|].
  split; [|split].
  - apply Forall_forall. intros c I. apply in_rev in I.
    rewrite Forall_forall in B. now apply B.
  - intros c r R. apply (H1 c (r ++ rev b)). now rewrite U, R.
  - intros r c R. apply (H2 c (rev r)).
    rewrite <- (rev_involutive v), R, rev_app_distr. reflexivity.
Qed.

(** X16: on a miss of the cache, [correct] answers with the reply of the
    model without the white space at its two ends: the answer is a piece of
    the reply with nothing but white space before and after it, and it
    neither begins nor ends with a white-space character; that answer is
    what the cache holds afterwards. *)
Theorem correct_answer_stripped (sha256_hex : str -> str)
  (ollama_stream : str -> str -> res (list str)) (t_get t_set : Q)
  (req : CorrectRequest) (CACHE : cache) (reply : str) :
  fst (_cache_get sha256_hex t_get (model_or_default (co_model req))
         (s2l "AUTO|" ++ co_text req) CACHE) = None ->
  _ollama_generate ollama_stream (model_or_default (co_model req))
    (correct_prompt (co_text req)) = Ok reply ->
  exists s a b CACHE',
    correct sha256_hex ollama_stream t_get t_set req CACHE =
      (Ok (RText (VText s)), CACHE') /\
    dict_get (_hash_key sha256_hex (model_or_default (co_model req))
                (s2l "AUTO|" ++ co_text req)) CACHE' = Some (t_set, VText s) /\
    reply = a ++ s ++ b /\
    Forall (fun c => is_space c = true) a /\
    Forall (fun c => is_space c = true) b /\
    (forall c r, s = c :: r -> is_space c = false) /\
    (forall r c, s = r ++ [c] -> is_space c = false).
Proof.
  intros Miss Gen. unfold correct.
  destruct (_cache_get sha256_hex t_get _ _ CACHE) as [o CACHE0].
  cbn [fst] in Miss. subst o. rewrite Gen.
  destruct (strip_spec reply) as (a & b & E & A & B & H & T).
  exists (strip reply), a, b. eexists. split; [reflexivity|].
  split; [apply dict_get_set|]. now repeat split.
Qed.

Lemma correct_answer_stripped_witness :
  exists s a b CACHE',
    correct stub_hash (stub_const (s2l "  I have an apple. ")) 0 1
      (mkCorrectRequest (s2l "I has a apple") None) [] =
      (Ok (RText (VText s)), CACHE') /\
    s2l "  I have an apple. " = a ++ s ++ b.
Proof.
  destruct (correct_answer_stripped stub_hash
              (stub_const (s2l "  I have an apple. ")) 0 1
              (mkCorrectRequest (s2l "I has a apple") None) []
              (s2l "  I have an apple. ") eq_refl eq_refl)
    as (s & a & b & C & R & _ & E & _).
  exists s, a, b, C. split; [exact R|exact E].
Defined.

(** ** Model client *)

Lemma stream_step_acc (line : str) (acc : list json) :
  stream_step acc line = acc ++ stream_step [] line.
Proof.
  unfold stream_step. destruct (negb (truthy line)); [now rewrite app_nil_r|].
  destruct (loads line) as [obj|]; [|now rewrite app_nil_r].
  destruct (py_get_default obj (s2l "response") (JStr []));
    [reflexivity|now rewrite app_nil_r].
Qed.

Lemma stream_fold_acc (lines : list str) : forall acc,
  fold_left stream_step lines acc = acc ++ fold_left stream_step lines [].
Proof.
  induction lines as [|l lines IH]; intros acc; cbn [fold_left].
  - now rewrite app_nil_r.
  - rewrite IH, (IH (stream_step [] l)), stream_step_acc, app_assoc.
    reflexivity.
Qed.

Lemma join_app (a b : list json) :
  join (a ++ b) = x <- join a ;; y <- join b ;; Ok (x ++ y).
Proof.
  induction a as [|v a IH]; cbn [app join bind].
  - destruct (join b); reflexivity.
  - destruct v; try reflexivity. rewrite IH.
    destruct (join a); cbn [bind]; [|reflexivity].
    destruct (join b); cbn [bind]; [|reflexivity].
    now rewrite app_assoc.
Qed.

(** X17: the reply of the model client is put together line by line, in
    the order of arrival: the reply for two runs of lines is the reply for
    the first followed by the reply for the second.  An empty line, a line
    that is no JSON and a JSON value that is no object add nothing; an
    object without [response] adds the empty string and one with a string
    adds that string; an object whose [response] is no string makes the
    call raise [TypeError] instead of being skipped.  A failed request
    raises. *)
Theorem ollama_generate_assembly (model prompt : str) :
  let gen := fun lines => _ollama_generate (fun _ _ => Ok lines) model prompt in
  (forall e, _ollama_generate (fun _ _ => Raise e) model prompt = Raise e) /\
  gen [] = Ok [] /\
  (forall l1 l2,
     gen (l1 ++ l2) = a <- gen l1 ;; b <- gen l2 ;; Ok (a ++ b)) /\
  (forall line,
     gen [line] =
       match line with
       | [] => Ok []
       | _ :: _ =>
           match loads line with
           | Some (JObj kv) =>
               match dict_get (s2l "response") kv with
               | None => Ok []
               | Some (JStr s) => Ok s
               | Some _ => Raise TypeError
               end
           | _ => Ok []
           end
       end).
Proof.
  cbn zeta. unfold _ollama_generate. cbn [bind].
  split; [reflexivity|]. split; [reflexivity|]. split.
  - intros l1 l2. rewrite fold_left_app, stream_fold_acc. apply join_app.
  - intros line. cbn [fold_left]. unfold stream_step.
    destruct line as [|c line]; [reflexivity|]. cbn [truthy negb].
    destruct (loads (c :: line)) as [[| | | | | |kv]|]; try reflexivity.
    cbn [py_get_default].
    destruct (dict_get (s2l "response") kv) as [[| | | |s| |]|];
      try reflexivity.
    cbn [app fold_left join bind]. now rewrite app_nil_r.
Qed.

(** ** Health and model listing *)

Lemma names_of_spec (items names : list json) :
  names_of items = Some names <->
  Forall2 (fun m n => py_getitem m (s2l "name") = Some n) items names.
Proof.
  revert names. induction items as [|m items IH]; intros names; cbn [names_of].
  - split; [intros [= <-]; constructor|intros H; now inversion H].
  - destruct (py_getitem m (s2l "name")) as [n|] eqn:G.
    + destruct (names_of items) as [ns|]; cbn [option_map].
      * split.
        -- intros [= <-]. constructor; [exact G|]. now apply IH.
        -- intros H. inversion H as [|? n' ? ns' G' F]; subst.
           apply IH in F. congruence.
      * split; [discriminate|]. intros H.
        inversion H as [|? n' ? ns' G' F]; subst. apply IH in F. discriminate.
    + split; [discriminate|]. intros H. inversion H; subst. congruence.
Qed.

(** X18: [models] lists the names exactly when the request succeeds with a
    status outside 400..599 and a body that is a JSON object whose [models]
    value, the empty list when the key is missing, can be iterated and
    holds nothing but objects with a [name]; the names come in the order of
    the entries.  In every other case, one entry without a name included,
    the answer is the error 500.  [health] says ok exactly for a reply with
    status 200, so that the two endpoints can disagree on one reply. *)
Theorem models_contract :
  (forall (r : tags_reply) (names : list json),
     models (Ok r) = Some names <->
     is_error_status (status_code r) = false /\
     exists kv items,
       loads (body r) = Some (JObj kv) /\
       py_iter (match dict_get (s2l "models") kv with
                | Some ms => ms
                | None => JArr []
                end) = Ok items /\
       Forall2 (fun m n => py_getitem m (s2l "name") = Some n) items names) /\
  (forall e, models (Raise e) = None /\ health (Raise e) = false) /\
  (forall r, health (Ok r) = true <-> status_code r = 200) /\
  (forall (r : tags_reply) (before after : list json) (kv : dict json) (m : json),
     loads (body r) = Some (JObj kv) ->
     dict_get (s2l "models") kv = Some (JArr (before ++ m :: after)) ->
     py_getitem m (s2l "name") = None ->
     models (Ok r) = None).
Proof.
  split; [|split; [|split]].
  - intros r names. unfold models.
    destruct (is_error_status (status_code r));
      [split; [discriminate|intros [H _]; discriminate]|].
    destruct (loads (body r)) as [data|];
      [|split; [discriminate|intros (_ & kv & items & H & _); discriminate]].
    destruct data as [| | | | | |kv];
      try (split; [discriminate|intros (_ & kv & items & H & _); discriminate]).
    cbn [py_get_default].
    destruct (py_iter _) as [items|e] eqn:I.
    + rewrite names_of_spec. split.
      * intros F. split; [reflexivity|]. now exists kv, items.
      * intros (_ & kv' & items' & [= <-] & I' & F).
        rewrite I in I'. now injection I' as <-.
    + split; [discriminate|].
      intros (_ & kv' & items' & [= <-] & I' & _). rewrite I in I'. discriminate.
  - intros e. split; reflexivity.
  - intros r. unfold health. apply Z.eqb_eq.
  - intros r before after kv m L M G. unfold models.
    destruct (is_error_status (status_code r)); [reflexivity|].
    rewrite L. cbn [py_get_default]. rewrite M. cbn [py_iter].
    destruct (names_of (before ++ m :: after)) as [names|] eqn:N; [|reflexivity].
    apply names_of_spec in N. exfalso.
    apply Forall2_app_inv_l in N. destruct N as (n1 & n2 & _ & N & _).
    inversion N; subst. congruence.
Qed.

Lemma models_contract_witness :
  models (Ok (mkTagsReply 200
                (jq "{'models':[{'name':'llama3','size':1},{'name':'phi'}]}"))) =
    Some [JStr (s2l "llama3"); JStr (s2l "phi")] /\
  models (Ok (mkTagsReply 200
                (jq "{'models':[{'name':'llama3'},{'size':1}]}"))) = None /\
  (health (Ok (mkTagsReply 204 (jq "{}"))) = false /\
   models (Ok (mkTagsReply 204 (jq "{}"))) = Some []).
Proof.
  split; [|split].
  - apply (proj1 models_contract). split; [reflexivity|].
    eexists. eexists. split; [vm_compute; reflexivity|].
    split; [vm_compute; reflexivity|].
    repeat constructor.
  - apply (proj2 (proj2 (proj2 models_contract)) _
             [JObj [(s2l "name", JStr (s2l "llama3"))]] []
             [(s2l "models",
               JArr [JObj [(s2l "name", JStr (s2l "llama3"))];
                     JObj [(s2l "size", JInt 1)]])]
             (JObj [(s2l "size", JInt 1)])); reflexivity.
  - split; [reflexivity|].
    apply (proj1 models_contract). split; [reflexivity|].
    exists [], []. repeat split. constructor.
Defined.

(** ** Response extractor *)

Lemma find_from_first (c : ascii) (pre r : str) : forall i,
  ~ In c pre -> find_from c (pre ++ c :: r) i = i + len pre.
Proof.
  induction pre as [|d pre IH]; intros i N; cbn [app find_from].
  - rewrite Ascii.eqb_refl. change (len []) with 0. lia.
  - destruct (Ascii.eqb_spec d c) as [->|_]; [exfalso; apply N; now left|].
    rewrite IH, len_cons; [lia|]. intros I. apply N. now right.
Qed.

Lemma rfind_from_none (c : ascii) (s : str) : forall i,
  ~ In c s -> rfind_from c s i = -1.
Proof.
  induction s as [|d s IH]; intros i N; cbn [rfind_from]; [reflexivity|].
  rewrite IH by (intros I; apply N; now right).
  change (-1 =? -1) with true. cbv iota.
  destruct (Ascii.eqb_spec d c) as [->|_]; [exfalso; apply N; now left|].
  reflexivity.
Qed.

Lemma rfind_from_last (c : ascii) (x post : str) : forall i,
  0 <= i -> ~ In c post -> rfind_from c (x ++ c :: post) i = i + len x.
Proof.
  induction x as [|d x IH]; intros i Hi N; cbn [app rfind_from].
  - rewrite (rfind_from_none c post (i + 1) N).
    change (-1 =? -1) with true. cbv iota. rewrite Ascii.eqb_refl.
    change (len []) with 0. lia.
  - rewrite IH by (lia || assumption). rewrite len_cons.
    pose proof (len_nonneg x).
    destruct (Z.eqb_spec (i + 1 + len x) (-1)); lia.
Qed.

(** X19: a JSON array wrapped in prose is got back: when the text is the
    array, from its opening to its closing bracket, with no opening bracket
    anywhere before it and no closing bracket anywhere after it, the
    extractor returns what [json.loads] reads from the array, whatever else
    stands around it. *)
Theorem extract_json_list_salvage (pre mid post : str) (v : json) :
  ~ In "["%char pre ->
  ~ In "]"%char post ->
  loads ("["%char :: mid ++ ["]"%char]) = Some v ->
  _extract_json_list (pre ++ ("["%char :: mid ++ ["]"%char]) ++ post) = v.
Proof.
  intros NP NQ L. unfold _extract_json_list.
  assert (F : find (pre ++ ("["%char :: mid ++ ["]"%char]) ++ post) "["%char
              = len pre).
  { unfold find. cbn [app]. rewrite find_from_first by exact NP. lia. }
  assert (R : rfind (pre ++ ("["%char :: mid ++ ["]"%char]) ++ post) "]"%char
              = len pre + 1 + len mid).
  { unfold rfind.
    replace (pre ++ ("["%char :: mid ++ ["]"%char]) ++ post)
      with ((pre ++ "["%char :: mid) ++ "]"%char :: post)
      by (cbn [app]; now rewrite <- !app_assoc).
    rewrite rfind_from_last by (lia || exact NQ).
    rewrite len_app, len_cons. lia. }
  rewrite F, R. pose proof (len_nonneg pre). pose proof (len_nonneg mid).
  replace ((len pre =? -1) || (len pre + 1 + len mid =? -1)
           || (len pre + 1 + len mid <=? len pre)) with false.
  - replace (len pre + 1 + len mid + 1)
      with (len pre + len ("["%char :: mid ++ ["]"%char]))
      by (rewrite len_cons, len_app; change (len ["]"%char]) with 1; lia).
    rewrite slice_middle. now rewrite L.
  - symmetry. apply orb_false_iff. split; [apply orb_false_iff; split|].
    + apply Z.eqb_neq. lia.
    + apply Z.eqb_neq. lia.
    + apply Z.leb_gt. lia.
Qed.

Lemma extract_json_list_salvage_witness :
  _extract_json_list
    (s2l "Sure, here: " ++ ("["%char :: jq "{'misspelled_word':'has'}" ++ ["]"%char])
     ++ s2l " Anything else?") =
  JArr [JObj [(s2l "misspelled_word", JStr (s2l "has"))]].
Proof.
  apply extract_json_list_salvage.
  - vm_compute. intuition discriminate.
  - vm_compute. intuition discriminate.
  - vm_compute. reflexivity.
Defined.

(** ** Expiry and recomputation *)

(** X20: a request whose entry has expired is computed again: the answer
    is the one of the loop over the chunks, the old entry is replaced by
    the new answer with the time of the write, and the cache holds as many
    entries as before, under distinct keys. *)
Theorem spellcheck_recomputed_after_expiry (sha256_hex : str -> str)
  (ollama_stream : str -> str -> res (list str)) (t_get t_set ts : Q)
  (req : SpellcheckRequest) (CACHE : cache) (old : cache_value)
  (g : dict correction) (offset : Z) :
  let key := _hash_key sha256_hex (model_or_default (sc_model req))
               (sc_text req) in
  NoDup (keys CACHE) ->
  dict_get key CACHE = Some (ts, old) ->
  ~ (t_get - ts <= CACHE_TTL)%Q ->
  for_each (chunk_body ollama_stream (model_or_default (sc_model req)))
    (chunk_text (sc_text req) (max_chunk_chars req)) ([], 0) = Ok (g, offset) ->
  exists CACHE',
    spellcheck sha256_hex ollama_stream t_get t_set req CACHE =
      (Ok (RCorrections (VCorrections (values g))), CACHE') /\
    dict_get key CACHE' = Some (t_set, VCorrections (values g)) /\
    length CACHE' = length CACHE /\
    NoDup (keys CACHE').
Proof.
  intros key N G X Run. unfold spellcheck, _cache_get. fold key. rewrite G.
  destruct (Qle_bool (t_get - ts) CACHE_TTL) eqn:E;
    [apply Qle_bool_iff in E; tauto|].
  cbn [negb]. rewrite Run. eexists. split; [reflexivity|].
  unfold _cache_set. fold key. split; [apply dict_get_set|]. split.
  - rewrite dict_set_length, (dict_pop_get _ _ N).
    exact (dict_pop_length _ _ _ G).
  - apply dict_set_NoDup, dict_pop_NoDup, N.
Qed.

Lemma spellcheck_recomputed_after_expiry_witness :
  exists CACHE',
    spellcheck stub_hash (stub_const (s2l "[]")) 100 101
      (mkSpellcheckRequest (s2l "t") (Some (s2l "m")) 1600)
      [(stub_hash (s2l "m||t"), (0%Q, VText (s2l "x")))] =
      (Ok (RCorrections (VCorrections [])), CACHE') /\
    length CACHE' = 1%nat.
Proof.
  destruct (spellcheck_recomputed_after_expiry stub_hash
              (stub_const (s2l "[]")) 100 101 0
              (mkSpellcheckRequest (s2l "t") (Some (s2l "m")) 1600)
              [(stub_hash (s2l "m||t"), (0%Q, VText (s2l "x")))]
              (VText (s2l "x")) [] 1)
    as (C & R & _ & L & _).
  - repeat constructor. intros [].
  - reflexivity.
  - vm_compute. intros H. now apply H.
  - vm_compute. reflexivity.
  - exists C. split; [exact R|exact L].
Defined.
